(** * QuickChat backend: the room / session state machine of [server.js]

    The server keeps three module-level tables, [rooms], [chatHistory] and
    [socketToUserMap], and mutates them from three socket.io handlers
    ([join-room], [send-message], [disconnect]).  Node runs every handler to
    completion, so a handler is a function from the state before to the state
    after, together with the events it emits.

    JavaScript strings are sequences of UTF-16 code units and are modelled as
    [list N]; string literals of the source are written with [js].  The
    arguments of the events are strings, as the clients of the server send
    them; the [timestamp] of a message may be absent.  The tables are plain
    objects used as maps; their keys are validated UUIDs and socket ids, so
    they are modelled as [gmap]s.  A JS [Set] keeps insertion order and is
    modelled as a duplicate-free list in that order.  The calls to
    [console.log] are left out. *)

From Stdlib Require Import String Ascii NArith.
From stdpp Require Import gmap list.

Local Open Scope N_scope.

(** ** JavaScript strings *)

Abbreviation jsstr := (list N).

Definition js (s : string) : jsstr := map N_of_ascii (list_ascii_of_string s).

(** [!s] for a string [s]: only the empty string is falsy. *)
Definition falsy (s : jsstr) : bool :=
  match s with [] => true | _ => false end.

(** WhiteSpace and LineTerminator code units, as [String.prototype.trim]
    strips them (ECMAScript: TAB, VT, FF, SP, NBSP, ZWNBSP, the Zs category,
    LF, CR, LS, PS). *)
Definition is_space (c : N) : bool :=
  (9 <=? c) && (c <=? 13)
  || (c =? 32) || (c =? 160) || (c =? 5760)
  || (8192 <=? c) && (c <=? 8202)
  || (c =? 8232) || (c =? 8233) || (c =? 8239) || (c =? 8287)
  || (c =? 12288) || (c =? 65279).

Fixpoint trimStart (s : jsstr) : jsstr :=
  match s with
  | c :: s' => if is_space c then trimStart s' else s
  | [] => []
  end.

Definition trimEnd (s : jsstr) : jsstr := rev (trimStart (rev s)).

Definition trim (s : jsstr) : jsstr := trimEnd (trimStart s).

(** [!s || s.trim().length === 0], the test both handlers apply to the
    username and to the message text. *)
Definition blank (s : jsstr) : bool :=
  falsy s || (N.of_nat (length (trim s)) =? 0).

(** ** [isValidUUID]

    [/^[0-9a-fA-F]{8}-[0-9a-fA-F]{4}-[0-9a-fA-F]{4}-[0-9a-fA-F]{4}-[0-9a-fA-F]{12}$/]
    has no flags: [^] and [$] are the two ends of the input. *)

Definition is_hex (c : N) : bool :=
  (48 <=? c) && (c <=? 57)         (* 0-9 *)
  || (97 <=? c) && (c <=? 102)     (* a-f *)
  || (65 <=? c) && (c <=? 70).     (* A-F *)

(** Consume exactly [n] hexadecimal digits. *)
Fixpoint hex_run (n : nat) (s : jsstr) : option jsstr :=
  match n with
  | O => Some s
  | S n' =>
      match s with
      | c :: s' => if is_hex c then hex_run n' s' else None
      | [] => None
      end
  end.

(** Consume [n] hexadecimal digits and a hyphen (code unit 45). *)
Definition hex_group (n : nat) (s : jsstr) : option jsstr :=
  match hex_run n s with
  | Some (45 :: s') => Some s'
  | _ => None
  end.

Definition isValidUUID (str : jsstr) : bool :=
  match hex_group 8 str with
  | Some s1 =>
      match hex_group 4 s1 with
      | Some s2 =>
          match hex_group 4 s2 with
          | Some s3 =>
              match hex_group 4 s3 with
              | Some s4 =>
                  match hex_run 12 s4 with
                  | Some [] => true
                  | _ => false
                  end
              | None => false
              end
          | None => false
          end
      | None => false
      end
  | None => false
  end.

(** ** Data *)

(** A value of [socketToUserMap]: [{ username, roomId }]. *)
Record UserInfo := mkUserInfo { username : jsstr; roomId : jsstr }.

(** A chat message on the wire and in [chatHistory]:
    [{ message, username, timestamp }]. *)
Record Msg := mkMsg { m_message : jsstr; m_username : jsstr; m_timestamp : jsstr }.

#[global] Instance UserInfo_eq_dec : EqDecision UserInfo.
Proof. solve_decision. Defined.

#[global] Instance Msg_eq_dec : EqDecision Msg.
Proof. solve_decision. Defined.

(** Events the server emits. *)
Inductive OutEvent :=
| room_error (reason : jsstr)
| chat_history (history : list Msg)
| update_users (users : list jsstr)
| receive_message (msg : Msg).

(** One [emit]: the sockets it is delivered to, fixed at the time of the
    call, and the event. *)
Record Emit := mkEmit { recipients : gset jsstr; payload : OutEvent }.

(** The three tables of the module and the part of socket.io's adapter the
    handlers drive: for every socket.io room, the ids of the sockets in it. *)
Record State := mkState {
  rooms : gmap jsstr (list jsstr);          (* roomId => Set of usernames *)
  chatHistory : gmap jsstr (list Msg);      (* roomId => Array of messages *)
  socketToUserMap : gmap jsstr UserInfo;    (* socket.id => { username, roomId } *)
  adapter : gmap jsstr (gset jsstr)         (* socket.io room => socket ids *)
}.

Definition init : State := mkState ∅ ∅ ∅ ∅.

Definition with_rooms (f : gmap jsstr (list jsstr) → gmap jsstr (list jsstr))
    (st : State) : State :=
  mkState (f (rooms st)) (chatHistory st) (socketToUserMap st) (adapter st).

Definition with_chatHistory (f : gmap jsstr (list Msg) → gmap jsstr (list Msg))
    (st : State) : State :=
  mkState (rooms st) (f (chatHistory st)) (socketToUserMap st) (adapter st).

Definition with_socketToUserMap (f : gmap jsstr UserInfo → gmap jsstr UserInfo)
    (st : State) : State :=
  mkState (rooms st) (chatHistory st) (f (socketToUserMap st)) (adapter st).

Definition with_adapter (f : gmap jsstr (gset jsstr) → gmap jsstr (gset jsstr))
    (st : State) : State :=
  mkState (rooms st) (chatHistory st) (socketToUserMap st) (f (adapter st)).

(** ** JS [Set] of usernames, in insertion order *)

Definition set_add (x : jsstr) (s : list jsstr) : list jsstr :=
  if decide (x ∈ s) then s else s ++ [x].

Definition set_delete (x : jsstr) (s : list jsstr) : list jsstr :=
  filter (λ y, y ≠ x) s.

(** ** socket.io

    [socket.join] and [socket.leave] edit the adapter; [socket.emit] reaches
    the socket itself, [io.to(room).emit] every socket in the room and
    [socket.to(room).emit] every socket in the room but the caller.  Every
    room the handlers address is a validated UUID, which no socket id is, so
    the private room socket.io keeps per socket id is left out: [occupants]
    is the real occupancy for room-ids of the UUID shape, and only those. *)

Definition occupants (room : jsstr) (st : State) : gset jsstr :=
  default ∅ (adapter st !! room).

Definition socket_join (sid room : jsstr) (st : State) : State :=
  with_adapter (λ a, <[room := {[sid]} ∪ default ∅ (a !! room)]> a) st.

Definition socket_leave (sid room : jsstr) (st : State) : State :=
  with_adapter (alter (λ S, S ∖ {[sid]}) room) st.

(** A closing socket leaves every room before its [disconnect] listeners
    run. *)
Definition socket_leaveAll (sid : jsstr) (st : State) : State :=
  with_adapter (fmap (λ S, S ∖ {[sid]})) st.

Definition socket_emit (sid : jsstr) (ev : OutEvent) : Emit :=
  mkEmit {[sid]} ev.

Definition io_to_emit (room : jsstr) (st : State) (ev : OutEvent) : Emit :=
  mkEmit (occupants room st) ev.

Definition socket_to_emit (sid room : jsstr) (st : State) (ev : OutEvent) : Emit :=
  mkEmit (occupants room st ∖ {[sid]}) ev.

(** ** Helpers of the module *)

(** [Array.from(rooms[roomId] || [])]. *)
Definition members (room : jsstr) (st : State) : list jsstr :=
  default [] (rooms st !! room).

(** [chatHistory[roomId] || []]. *)
Definition snapshot (room : jsstr) (st : State) : list Msg :=
  default [] (chatHistory st !! room).

Definition cleanupRoom (room : jsstr) (st : State) : State :=
  match rooms st !! room with
  | Some s =>
      if decide (length s = 0%nat)
      then with_chatHistory (delete room) (with_rooms (delete room) st)
      else st
  | None => st
  end.

(** [a.slice(-n)]: the last [n] elements, all of them when there are fewer. *)
Definition slice_last (n : nat) {A} (a : list A) : list A :=
  drop (length a - n) a.

(** ** The handlers

    Each handler takes the id of the socket it is registered on, the
    arguments of the event and the state, and returns the state after and
    the emits in the order the handler made them. *)

(** The vacate step of [join-room]: the body of [if (previousInfo)]. *)
Definition leave_previous (sid : jsstr) (previousInfo : UserInfo) (st : State)
    : State * list Emit :=
  let st1 := socket_leave sid (roomId previousInfo) st in
  let st2 :=
    with_rooms (alter (set_delete (username previousInfo)) (roomId previousInfo)) st1 in
  let st3 := cleanupRoom (roomId previousInfo) st2 in
  (st3, [io_to_emit (roomId previousInfo) st3
           (update_users (members (roomId previousInfo) st3))]).

(** The rest of [join-room], from [socket.join(roomId)] on. *)
Definition join_new (sid room cleanUsername : jsstr) (st : State)
    : State * list Emit :=
  let st1 := socket_join sid room st in
  let st2 := with_socketToUserMap <[sid := mkUserInfo cleanUsername room]> st1 in
  let st3 :=
    match rooms st2 !! room with
    | None => with_rooms <[room := []]> st2
    | Some _ => st2
    end in
  let st4 := with_rooms (alter (set_add cleanUsername) room) st3 in
  (st4, [socket_emit sid (chat_history (snapshot room st4));
         io_to_emit room st4 (update_users (members room st4))]).

Definition on_join_room (sid room user : jsstr) (st : State) : State * list Emit :=
  if negb (isValidUUID room) then
    (st, [socket_emit sid (room_error (js "Invalid room ID format"))])
  else if blank user then
    (st, [socket_emit sid (room_error (js "Username is required"))])
  else
    let cleanUsername := trim user in
    let '(st1, out1) :=
      match socketToUserMap st !! sid with
      | Some previousInfo => leave_previous sid previousInfo st
      | None => (st, [])
      end in
    let '(st2, out2) := join_new sid room cleanUsername st1 in
    (st2, out1 ++ out2).

(** [!userInfo || userInfo.roomId !== roomId ||
     userInfo.username !== username.trim()], negated. *)
Definition authorized (sid room user : jsstr) (st : State) : bool :=
  match socketToUserMap st !! sid with
  | Some userInfo =>
      bool_decide (roomId userInfo = room)
      && bool_decide (username userInfo = trim user)
  | None => false
  end.

(** [timestamp || new Date().toLocaleTimeString()]: [clock] is the string
    the server's clock gives when the handler runs; an absent ([undefined])
    and an empty timestamp are both falsy. *)
Definition timestamp_or (timestamp : option jsstr) (clock : jsstr) : jsstr :=
  match timestamp with
  | Some t => if falsy t then clock else t
  | None => clock
  end.

Definition build_msg (text user : jsstr) (timestamp : option jsstr) (clock : jsstr)
    : Msg :=
  mkMsg (trim text) (trim user) (timestamp_or timestamp clock).

(** [push] followed by the cut to the last 100 messages. *)
Definition push_bounded (msg : Msg) (history : list Msg) : list Msg :=
  let h := history ++ [msg] in
  if decide (100 < length h)%nat then slice_last 100 h else h.

Definition on_send_message (sid room text user : jsstr)
    (timestamp : option jsstr) (clock : jsstr) (st : State) : State * list Emit :=
  if negb (isValidUUID room) then
    (st, [socket_emit sid (room_error (js "Invalid room ID"))])
  else if blank text then
    (st, [])
  else if blank user then
    (st, [socket_emit sid (room_error (js "Username is required"))])
  else if negb (authorized sid room user st) then
    (st, [socket_emit sid (room_error (js "Unauthorized message"))])
  else
    let msg := build_msg text user timestamp clock in
    let st1 :=
      match chatHistory st !! room with
      | None => with_chatHistory <[room := []]> st
      | Some _ => st
      end in
    let st2 := with_chatHistory (alter (push_bounded msg) room) st1 in
    (st2, [socket_to_emit sid room st2 (receive_message msg)]).

Definition on_disconnect (sid : jsstr) (st0 : State) : State * list Emit :=
  let st := socket_leaveAll sid st0 in
  let '(st1, out) :=
    match socketToUserMap st !! sid with
    | Some userInfo =>
        match rooms st !! roomId userInfo with
        | Some _ =>
            let st1 :=
              with_rooms (alter (set_delete (username userInfo)) (roomId userInfo)) st in
            (cleanupRoom (roomId userInfo) st1,
             [io_to_emit (roomId userInfo) st1
                (update_users (members (roomId userInfo) st1))])
        | None => (st, [])
        end
    | None => (st, [])
    end in
  (with_socketToUserMap (delete sid) st1, out).

(** ** Events and runs *)

Inductive Event :=
| join_room (sid room user : jsstr)
| send_message (sid room text user : jsstr) (timestamp : option jsstr) (clock : jsstr)
| disconnect (sid : jsstr).

Definition handle (ev : Event) (st : State) : State * list Emit :=
  match ev with
  | join_room sid room user => on_join_room sid room user st
  | send_message sid room text user timestamp clock =>
      on_send_message sid room text user timestamp clock st
  | disconnect sid => on_disconnect sid st
  end.

Definition step (st : State) (ev : Event) : State := (handle ev st).1.

(** The state after the events of [evs], handled one after the other. *)
Definition run (st : State) (evs : list Event) : State := foldl step st evs.

Definition reachable (st : State) : Prop := ∃ evs, st = run init evs.

(** ** Reading the state *)

(** [user] is in the member set of [room]. *)
Definition member (st : State) (room user : jsstr) : Prop :=
  user ∈ members room st.

#[global] Instance member_dec st room user : Decision (member st room user).
Proof. unfold member. apply _. Defined.

(** Some connection's entry of [socketToUserMap] is [{ user, room }]. *)
Definition named (st : State) (room user : jsstr) : Prop :=
  ∃ sid, socketToUserMap st !! sid = Some (mkUserInfo user room).

Definition memberCount (room : jsstr) (st : State) : nat :=
  length (members room st).

(** No two connections hold the same [{ username, roomId }]. *)
Definition unshared (st : State) : Prop :=
  NoDup (map_to_list (socketToUserMap st)).*2.

#[global] Instance unshared_dec st : Decision (unshared st).
Proof. unfold unshared. apply _. Defined.

(** The states a run goes through, the first and the last included. *)
Fixpoint visited (st : State) (evs : list Event) : list State :=
  st :: match evs with
        | [] => []
        | ev :: evs' => visited (step st ev) evs'
        end.

(** What the vacate step and [disconnect] do to [rooms] and [chatHistory]
    for the pair [{ user, room }] they read from [socketToUserMap]: the
    optional-chained [delete] followed by [cleanupRoom]. *)
Definition vacate_rooms (user room : jsstr) (rs : gmap jsstr (list jsstr))
    : gmap jsstr (list jsstr) :=
  match rs !! room with
  | Some s => if decide (set_delete user s = [])
              then delete room rs
              else <[room := set_delete user s]> rs
  | None => rs
  end.

Definition vacate_history (user room : jsstr) (rs : gmap jsstr (list jsstr))
    (h : gmap jsstr (list Msg)) : gmap jsstr (list Msg) :=
  match rs !! room with
  | Some s => if decide (set_delete user s = []) then delete room h else h
  | None => h
  end.

(** A [join-room] passes both of its checks. *)
Definition valid_join (room user : jsstr) : bool :=
  isValidUUID room && negb (blank user).

(** A message is accepted when it passes all four checks of [send-message]. *)
Definition accepted (sid room text user : jsstr) (st : State) : bool :=
  isValidUUID room && negb (blank text) && negb (blank user)
  && authorized sid room user st.

(** The tables after the vacate step of a join, or after the first half of
    [disconnect], for a connection whose entry of [socketToUserMap] is
    [prev]. *)
Definition vacated_rooms (prev : option UserInfo) (st : State)
    : gmap jsstr (list jsstr) :=
  match prev with
  | Some p => vacate_rooms (username p) (roomId p) (rooms st)
  | None => rooms st
  end.

Definition vacated_history (prev : option UserInfo) (st : State)
    : gmap jsstr (list Msg) :=
  match prev with
  | Some p => vacate_history (username p) (roomId p) (rooms st) (chatHistory st)
  | None => chatHistory st
  end.

Definition vacated_adapter (sid : jsstr) (prev : option UserInfo) (st : State)
    : gmap jsstr (gset jsstr) :=
  match prev with
  | Some p => alter (λ S, S ∖ {[sid]}) (roomId p) (adapter st)
  | None => adapter st
  end.

(** What holds in every state the server can reach. *)
Record Inv (st : State) : Prop := mkInv {
  inv_named : ∀ room user, member st room user → named st room user;
  inv_nonempty : ∀ room s, rooms st !! room = Some s → s ≠ [];
  inv_nodup : ∀ room s, rooms st !! room = Some s → NoDup s;
  inv_adapter : ∀ sid room,
    sid ∈ occupants room st
    ↔ ∃ user, socketToUserMap st !! sid = Some (mkUserInfo user room)
}.

(** Every pair named by a connection is in the member set of its room. *)
Definition sessions_seated (st : State) : Prop :=
  ∀ room user, named st room user → member st room user.

(** A room without an entry in [rooms] has no entry in [chatHistory]. *)
Definition history_follows_rooms (st : State) : Prop :=
  ∀ room, rooms st !! room = None → chatHistory st !! room = None.

(** Every member is named by a connection, and every connection's name is a
    member of its room. *)
Definition membership_consistent (st : State) : Prop :=
  ∀ room user, member st room user ↔ named st room user.

(** ** Sample data *)

Definition room_a : jsstr := js "11111111-1111-1111-1111-111111111111".
Definition room_b : jsstr := js "2a2b2c2d-2222-4222-8222-22222222ABCD".
Definition conn1 : jsstr := js "conn1".
Definition conn2 : jsstr := js "conn2".
Definition alice : jsstr := js "alice".
Definition bob : jsstr := js "bob".
Definition noon : jsstr := js "12:00:00 PM".

(** Two connections join [room_a] as [alice], then the first one closes. *)
Definition shared_name_run : list Event :=
  [join_room conn1 room_a alice; join_room conn2 room_a alice; disconnect conn1].

(** After [shared_name_run] the second connection, whose entry still names
    [room_a], sends a message to it. *)
Definition orphan_history_run : list Event :=
  shared_name_run ++ [send_message conn2 room_a (js "hi") alice None noon].

(** [ev] is a [send-message] for [room] that passes the checks in [st]. *)
Definition delivers (room : jsstr) (st : State) (ev : Event) : bool :=
  match ev with
  | send_message sid r text user _ _ =>
      bool_decide (r = room) && accepted sid r text user st
  | _ => false
  end.

(** Every event of [evs] is a successful send to [room] in the state it is
    handled in. *)
Fixpoint all_delivered (room : jsstr) (st : State) (evs : list Event) : bool :=
  match evs with
  | [] => true
  | ev :: evs' => delivers room st ev && all_delivered room (step st ev) evs'
  end.

(** The message a [send-message] event stores when it is accepted. *)
Definition message_of (ev : Event) : option Msg :=
  match ev with
  | send_message _ _ text user timestamp clock =>
      Some (build_msg text user timestamp clock)
  | _ => None
  end.

Definition messages_of (evs : list Event) : list Msg := omap message_of evs.

(** [n] sends of [alice] on [conn1] to [room_a], with texts of one code unit
    each, from ["0"] on. *)
Definition numbered_sends (n : nat) : list Event :=
  map (λ i, send_message conn1 room_a [N.of_nat i + 48] alice None noon) (seq 0 n).

(** The checks of [send-message] on the entry of [socketToUserMap] fail: no
    entry, another room, or another username than the trimmed one. *)
Definition unauthorized (sid room user : jsstr) (st : State) : Prop :=
  socketToUserMap st !! sid = None
  ∨ ∃ userInfo, socketToUserMap st !! sid = Some userInfo
                ∧ (roomId userInfo ≠ room ∨ username userInfo ≠ trim user).

(** The emits are one [room-error], to [sid] alone. *)
Definition room_error_only (sid : jsstr) (out : list Emit) : Prop :=
  ∃ reason, out = [mkEmit {[sid]} (room_error reason)].

(** ** Further readings of the code *)

(** The shape [isValidUUID] accepts: runs of 8, 4, 4, 4 and 12 hexadecimal
    digits with a hyphen between them, and nothing else. *)
Definition uuid_shape (s : jsstr) : Prop :=
  ∃ g1 g2 g3 g4 g5,
    s = g1 ++ 45 :: g2 ++ 45 :: g3 ++ 45 :: g4 ++ 45 :: g5
    ∧ (length g1 = 8 ∧ length g2 = 4 ∧ length g3 = 4 ∧ length g4 = 4
       ∧ length g5 = 12)%nat
    ∧ forallb is_hex (g1 ++ g2 ++ g3 ++ g4 ++ g5) = true.

(** A name as the handlers store it: not empty, and unchanged by [trim]. *)
Definition clean (s : jsstr) : Prop := s ≠ [] ∧ trim s = s.

(** What the validation of the handlers guarantees of everything stored. *)
Record WellFormed (st : State) : Prop := mkWellFormed {
  wf_sessions : ∀ sid userInfo,
    socketToUserMap st !! sid = Some userInfo →
    isValidUUID (roomId userInfo) = true ∧ clean (username userInfo);
  wf_history : ∀ room h,
    chatHistory st !! room = Some h →
    isValidUUID room = true ∧ h ≠ [] ∧ (length h ≤ 100)%nat
    ∧ ∀ msg, msg ∈ h → clean (m_message msg) ∧ clean (m_username msg)
}.

(** The connection an event comes from. *)
Definition origin (ev : Event) : jsstr :=
  match ev with
  | join_room sid _ _ => sid
  | send_message sid _ _ _ _ _ => sid
  | disconnect sid => sid
  end.

(** The connection's previous room, when it has an entry. *)
Definition previous_room (sid : jsstr) (st : State) : list jsstr :=
  match socketToUserMap st !! sid with
  | Some previousInfo => [roomId previousInfo]
  | None => []
  end.

(** The keys of [rooms] an event can write to, read off the handlers. *)
Definition rooms_written (ev : Event) (st : State) : list jsstr :=
  match ev with
  | join_room sid room _ => room :: previous_room sid st
  | send_message _ _ _ _ _ _ => []
  | disconnect sid => previous_room sid st
  end.

(** The keys of [chatHistory] an event can write to. *)
Definition history_written (ev : Event) (st : State) : list jsstr :=
  match ev with
  | join_room sid _ _ => previous_room sid st
  | send_message _ room _ _ _ _ => [room]
  | disconnect sid => previous_room sid st
  end.

(** The entries of [socketToUserMap] that name [room]. *)
Definition sessions_in (room : jsstr) (st : State) : list UserInfo :=
  filter (λ userInfo, roomId userInfo = room) (map_to_list (socketToUserMap st)).*2.

(** The part of the text that [send-message] writes to the log:
    [message.substring(0, 50)] followed by ['...'] when [message.length > 50].
    It is cut from the text as received, before trimming. *)
Definition message_preview (message : jsstr) : jsstr :=
  take 50 message ++ (if decide (50 < length message)%nat then js "..." else []).

(** What an emitted event carries has passed the validation. *)
Definition payload_validated (ev : OutEvent) : Prop :=
  match ev with
  | room_error _ => True
  | chat_history history =>
      (length history ≤ 100)%nat
      ∧ ∀ msg, msg ∈ history → clean (m_message msg) ∧ clean (m_username msg)
  | update_users users => NoDup users ∧ ∀ user, user ∈ users → clean user
  | receive_message msg => clean (m_message msg) ∧ clean (m_username msg)
  end.

(** ** The first revision of the server

    [server.js] begins with the first revision of the server: the same three
    tables and the same three handlers, without [isValidUUID], [trim],
    [cleanupRoom], the authorization check and the bound on the history.  The
    room-id is used as a key as it arrives, so two things the later revision
    rules out are modelled here: a room-id that names a property every object
    inherits, and a room-id that is the id of a socket (socket.io keeps a room
    of that name for every connected socket, which the socket joins when it
    connects). *)
Module Legacy.

(** [{ message, username, timestamp }], as received: nothing is trimmed, and
    the timestamp stays absent when the client sent none. *)
Record Msg := mkMsg {
  m_message : jsstr; m_username : jsstr; m_timestamp : option jsstr
}.

Inductive OutEvent :=
| chat_history (history : list Msg)
| update_users (users : list jsstr)
| receive_message (msg : Msg).

Record Emit := mkEmit { recipients : gset jsstr; payload : OutEvent }.

Record State := mkState {
  rooms : gmap jsstr (list jsstr);
  chatHistory : gmap jsstr (list Msg);
  socketToUserMap : gmap jsstr UserInfo;
  adapter : gmap jsstr (gset jsstr)
}.

Definition init : State := mkState ∅ ∅ ∅ ∅.

Definition with_rooms (f : gmap jsstr (list jsstr) → gmap jsstr (list jsstr))
    (st : State) : State :=
  mkState (f (rooms st)) (chatHistory st) (socketToUserMap st) (adapter st).

Definition with_chatHistory (f : gmap jsstr (list Msg) → gmap jsstr (list Msg))
    (st : State) : State :=
  mkState (rooms st) (f (chatHistory st)) (socketToUserMap st) (adapter st).

Definition with_socketToUserMap (f : gmap jsstr UserInfo → gmap jsstr UserInfo)
    (st : State) : State :=
  mkState (rooms st) (chatHistory st) (f (socketToUserMap st)) (adapter st).

Definition with_adapter (f : gmap jsstr (gset jsstr) → gmap jsstr (gset jsstr))
    (st : State) : State :=
  mkState (rooms st) (chatHistory st) (socketToUserMap st) (f (adapter st)).

Definition occupants (room : jsstr) (st : State) : gset jsstr :=
  default ∅ (adapter st !! room).

Definition socket_join (sid room : jsstr) (st : State) : State :=
  with_adapter (λ a, <[room := {[sid]} ∪ default ∅ (a !! room)]> a) st.

Definition socket_leaveAll (sid : jsstr) (st : State) : State :=
  with_adapter (fmap (λ S, S ∖ {[sid]})) st.

Definition socket_emit (sid : jsstr) (ev : OutEvent) : Emit :=
  mkEmit {[sid]} ev.

Definition io_to_emit (room : jsstr) (st : State) (ev : OutEvent) : Emit :=
  mkEmit (occupants room st) ev.

Definition socket_to_emit (sid room : jsstr) (st : State) (ev : OutEvent) : Emit :=
  mkEmit (occupants room st ∖ {[sid]}) ev.

Definition members (room : jsstr) (st : State) : list jsstr :=
  default [] (rooms st !! room).

Definition snapshot (room : jsstr) (st : State) : list Msg :=
  default [] (chatHistory st !! room).

(** The property names of [Object.prototype].  [rooms] and [chatHistory] are
    created with [{}], so reading them at one of these names gives the
    inherited function or object, which is truthy and is neither a [Set] nor
    an array.  No own property of such a name is ever created, since both
    tables create an entry only after reading a falsy value at its key. *)
Definition inherited_names : list jsstr :=
  [js "constructor"; js "__defineGetter__"; js "__defineSetter__";
   js "hasOwnProperty"; js "__lookupGetter__"; js "__lookupSetter__";
   js "isPrototypeOf"; js "propertyIsEnumerable"; js "toString"; js "valueOf";
   js "__proto__"; js "toLocaleString"].

Definition inherited (key : jsstr) : bool := bool_decide (key ∈ inherited_names).

(** A handler returns, or throws a [TypeError] part of the way; either way
    with the state it has reached and the emits it has made. *)
Inductive Outcome :=
| Returned (st : State) (out : list Emit)
| Threw (st : State) (out : list Emit).

Definition state_of (o : Outcome) : State :=
  match o with Returned st _ => st | Threw st _ => st end.

Definition emits_of (o : Outcome) : list Emit :=
  match o with Returned _ out => out | Threw _ out => out end.

(** [io.on("connection", ...)]: the callback only registers the handlers;
    socket.io has put the socket into the room of its own id. *)
Definition on_connection (sid : jsstr) (st : State) : Outcome :=
  Returned (socket_join sid sid st) [].

Definition on_join_room (sid roomId username : jsstr) (st : State) : Outcome :=
  let st1 := socket_join sid roomId st in
  let st2 := with_socketToUserMap <[sid := mkUserInfo username roomId]> st1 in
  if inherited roomId then
    Threw st2 []                       (* rooms[roomId].add is not a function *)
  else
    let st3 :=
      match rooms st2 !! roomId with
      | None => with_rooms <[roomId := []]> st2
      | Some _ => st2
      end in
    let st4 := with_rooms (alter (set_add username) roomId) st3 in
    Returned st4 [socket_emit sid (chat_history (snapshot roomId st4));
                  io_to_emit roomId st4 (update_users (members roomId st4))].

Definition on_send_message (sid roomId message username : jsstr)
    (timestamp : option jsstr) (st : State) : Outcome :=
  let msg := mkMsg message username timestamp in
  if inherited roomId then
    Threw st []                        (* chatHistory[roomId].push is not a function *)
  else
    let st1 :=
      match chatHistory st !! roomId with
      | None => with_chatHistory <[roomId := []]> st
      | Some _ => st
      end in
    let st2 := with_chatHistory (alter (λ h, h ++ [msg]) roomId) st1 in
    Returned st2 [socket_to_emit sid roomId st2 (receive_message msg)].

Definition on_disconnect (sid : jsstr) (st0 : State) : Outcome :=
  let st := socket_leaveAll sid st0 in
  match socketToUserMap st !! sid with
  | Some info =>
      if inherited (roomId info) then
        Threw st []                    (* rooms[roomId]?.delete is not a function *)
      else
        let st1 :=
          with_rooms (alter (set_delete (username info)) (roomId info)) st in
        let st2 :=
          match rooms st1 !! roomId info with
          | Some s =>
              if decide (length s = 0%nat)
              then with_chatHistory (delete (roomId info))
                     (with_rooms (delete (roomId info)) st1)
              else st1
          | None => st1
          end in
        Returned (with_socketToUserMap (delete sid) st2)
          [io_to_emit (roomId info) st2 (update_users (members (roomId info) st2))]
  | None => Returned (with_socketToUserMap (delete sid) st) []
  end.

Inductive Event :=
| connection (sid : jsstr)
| join_room (sid roomId username : jsstr)
| send_message (sid roomId message username : jsstr) (timestamp : option jsstr)
| disconnect (sid : jsstr).

Definition handle (ev : Event) (st : State) : Outcome :=
  match ev with
  | connection sid => on_connection sid st
  | join_room sid roomId username => on_join_room sid roomId username st
  | send_message sid roomId message username timestamp =>
      on_send_message sid roomId message username timestamp st
  | disconnect sid => on_disconnect sid st
  end.

(** The events of [evs] one after the other, up to the first that throws. *)
Fixpoint run (st : State) (evs : list Event) : Outcome :=
  match evs with
  | [] => Returned st []
  | ev :: evs' =>
      match handle ev st with
      | Returned st' out =>
          match run st' evs' with
          | Returned st'' out' => Returned st'' (out ++ out')
          | Threw st'' out' => Threw st'' (out ++ out')
          end
      | Threw st' out => Threw st' out
      end
  end.

(** [ev] is a [send-message] for [room]. *)
Definition sends_to (room : jsstr) (ev : Event) : bool :=
  match ev with
  | send_message _ roomId _ _ _ => bool_decide (roomId = room)
  | _ => false
  end.

Definition message_of (ev : Event) : option Msg :=
  match ev with
  | send_message _ _ message username timestamp =>
      Some (mkMsg message username timestamp)
  | _ => None
  end.

Definition messages_of (evs : list Event) : list Msg := omap message_of evs.

End Legacy.

(** The later revision's state and emits, read as the first revision's:
    every message has its timestamp. *)
Definition legacy_msg (msg : Msg) : Legacy.Msg :=
  Legacy.mkMsg (m_message msg) (m_username msg) (Some (m_timestamp msg)).

Definition legacy_state (st : State) : Legacy.State :=
  Legacy.mkState (rooms st) (fmap (map legacy_msg) (chatHistory st))
    (socketToUserMap st) (adapter st).

Definition legacy_emit (e : Emit) : option Legacy.Emit :=
  match payload e with
  | room_error _ => None
  | chat_history history =>
      Some (Legacy.mkEmit (recipients e) (Legacy.chat_history (map legacy_msg history)))
  | update_users users =>
      Some (Legacy.mkEmit (recipients e) (Legacy.update_users users))
  | receive_message msg =>
      Some (Legacy.mkEmit (recipients e) (Legacy.receive_message (legacy_msg msg)))
  end.

(** A numbered send in the first revision, by a connection that joined no
    room, under a name of its choice. *)
Definition legacy_numbered_sends (n : nat) : list Legacy.Event :=
  map (λ i, Legacy.send_message conn2 room_a [N.of_nat i + 48] alice None) (seq 0 n).

(** The event fails a check of its handler: a join that is not valid, a
    message that is not accepted.  A disconnect has no check. *)
Definition rejected (ev : Event) (st : State) : bool :=
  match ev with
  | join_room _ room user => negb (valid_join room user)
  | send_message sid room text user _ _ => negb (accepted sid room text user st)
  | disconnect _ => false
  end.

(** The entries of [socketToUserMap] an event can write to. *)
Definition entries_written (ev : Event) : list jsstr :=
  match ev with
  | join_room sid _ _ => [sid]
  | send_message _ _ _ _ _ _ => []
  | disconnect sid => [sid]
  end.

(** The emit [le] of the first revision is the emit [e] of the later one. *)
Definition same_emit (e : Emit) (le : Legacy.Emit) : Prop :=
  legacy_emit e = Some le.

(** Closed decidable goals are settled by evaluation. *)
Ltac by_compute := apply (bool_decide_unpack _); vm_compute; exact I.

(** * Properties *)

(** ** The handlers on the scenarios of the specification *)

Example uuid_samples :
  isValidUUID room_a = true ∧ isValidUUID room_b = true
  ∧ isValidUUID (js "lobby") = false
  ∧ isValidUUID (room_a ++ js "0") = false
  ∧ isValidUUID (js "1111111g-1111-1111-1111-111111111111") = false.
Proof. repeat split. Qed.

Example trim_samples :
  trim (js "  alice ") = alice ∧ trim (js "a b") = js "a b" ∧ trim [9; 10; 160] = [].
Proof. repeat split. Qed.

Example first_join :
  (on_join_room conn1 room_a alice init).2
  = [mkEmit {[conn1]} (chat_history []); mkEmit {[conn1]} (update_users [alice])].
Proof. vm_compute. reflexivity. Qed.

Example late_joiner_backfill :
  (on_join_room conn2 room_a bob
     (run init [join_room conn1 room_a alice;
                send_message conn1 room_a (js "hi") alice None noon])).2
  = [mkEmit {[conn2]} (chat_history [mkMsg (js "hi") alice noon]);
     mkEmit {[conn1; conn2]} (update_users [alice; bob])].
Proof. vm_compute. reflexivity. Qed.

Example last_member_leaves :
  rooms (on_disconnect conn1 (run init [join_room conn1 room_a alice])).1 = ∅
  ∧ chatHistory (on_disconnect conn1 (run init [join_room conn1 room_a alice])).1 = ∅
  ∧ socketToUserMap (on_disconnect conn1 (run init [join_room conn1 room_a alice])).1 = ∅
  ∧ (on_disconnect conn1 (run init [join_room conn1 room_a alice])).2
    = [mkEmit ∅ (update_users [])].
Proof. repeat split; vm_compute; reflexivity. Qed.

(** ** The JS [Set] operations *)

Lemma elem_of_set_add x y s : y ∈ set_add x s ↔ y ∈ s ∨ y = x.
Proof.
  unfold set_add. destruct (decide (x ∈ s)) as [Hin|Hin].
  - split; [auto | intros [?| ->]; assumption].
  - rewrite elem_of_app, list_elem_of_singleton. reflexivity.
Qed.

Lemma elem_of_set_delete x y s : y ∈ set_delete x s ↔ y ∈ s ∧ y ≠ x.
Proof. unfold set_delete. rewrite list_elem_of_filter. tauto. Qed.

Lemma NoDup_set_add x s : NoDup s → NoDup (set_add x s).
Proof.
  intros Hs. unfold set_add. destruct (decide (x ∈ s)) as [Hin|Hin]; [assumption|].
  apply NoDup_app. split; [assumption|]. split.
  - intros y Hy Hy'. apply list_elem_of_singleton in Hy'. subst y. contradiction.
  - apply NoDup_singleton.
Qed.

Lemma NoDup_set_delete x s : NoDup s → NoDup (set_delete x s).
Proof. apply NoDup_filter. Qed.

Lemma set_add_nonempty x s : set_add x s ≠ [].
Proof.
  intros Heq. assert (Hin : x ∈ set_add x s) by (apply elem_of_set_add; auto).
  rewrite Heq in Hin. inversion Hin.
Qed.

Lemma set_delete_absent x s : x ∉ s → set_delete x s = s.
Proof.
  induction s as [|y s IH]; intros Hnin; [reflexivity|].
  unfold set_delete in *. rewrite filter_cons.
  destruct (decide (y ≠ x)) as [_|Heq].
  - f_equal. apply IH. intros Hin. apply Hnin. right. exact Hin.
  - exfalso. apply Hnin. destruct (decide (y = x)) as [->|]; [left | contradiction].
Qed.

(** Deleting a present element of a duplicate-free set lowers its size by one. *)
Lemma length_set_delete x s :
  NoDup s → x ∈ s → S (length (set_delete x s)) = length s.
Proof.
  induction 1 as [|y s Hy Hs IH]; intros Hin; [inversion Hin|].
  unfold set_delete in *. rewrite filter_cons.
  destruct (decide (y ≠ x)) as [Hne|Heq].
  - simpl. f_equal. apply IH. inversion Hin; subst; [contradiction | assumption].
  - assert (y = x) as -> by (destruct (decide (y = x)); [assumption | contradiction]).
    simpl. f_equal. f_equal. apply (set_delete_absent x s Hy).
Qed.

(** ** What each handler does to each table *)

Lemma length_zero_nil {A} (l : list A) : length l = 0%nat ↔ l = [].
Proof. destruct l; simpl; split; (congruence || lia). Qed.

Lemma cleanupRoom_after_delete user room st :
  let st' := cleanupRoom room (with_rooms (alter (set_delete user) room) st) in
  rooms st' = vacate_rooms user room (rooms st)
  ∧ chatHistory st' = vacate_history user room (rooms st) (chatHistory st)
  ∧ socketToUserMap st' = socketToUserMap st
  ∧ adapter st' = adapter st.
Proof.
  unfold cleanupRoom, vacate_rooms, vacate_history. simpl.
  rewrite lookup_alter_eq.
  destruct (rooms st !! room) as [s|] eqn:Hs; simpl.
  - destruct (decide (length (set_delete user s) = 0%nat)) as [Hz|Hz];
      destruct (decide (set_delete user s = [])) as [He|He];
      try (apply length_zero_nil in Hz; contradiction);
      try (apply length_zero_nil in He; contradiction); simpl.
    + repeat split. apply map_eq. intros r.
      destruct (decide (r = room)) as [->|Hne].
      * rewrite !lookup_delete_eq. reflexivity.
      * rewrite !lookup_delete_ne, lookup_alter_ne by congruence. reflexivity.
    + repeat split. apply map_eq. intros r.
      destruct (decide (r = room)) as [->|Hne].
      * rewrite lookup_alter_eq, lookup_insert_eq, Hs. reflexivity.
      * rewrite lookup_alter_ne, lookup_insert_ne by congruence. reflexivity.
  - repeat split. apply map_eq. intros r.
    destruct (decide (r = room)) as [->|Hne].
    + rewrite lookup_alter_eq, Hs. reflexivity.
    + rewrite lookup_alter_ne by congruence. reflexivity.
Qed.

Lemma leave_previous_state sid p st :
  let st' := (leave_previous sid p st).1 in
  rooms st' = vacate_rooms (username p) (roomId p) (rooms st)
  ∧ chatHistory st' = vacate_history (username p) (roomId p) (rooms st) (chatHistory st)
  ∧ socketToUserMap st' = socketToUserMap st
  ∧ adapter st' = alter (λ S, S ∖ {[sid]}) (roomId p) (adapter st).
Proof.
  unfold leave_previous. cbn [fst].
  exact (cleanupRoom_after_delete (username p) (roomId p)
           (socket_leave sid (roomId p) st)).
Qed.

Lemma join_new_state sid room user st :
  let st' := (join_new sid room user st).1 in
  rooms st' = <[room := set_add user (members room st)]> (rooms st)
  ∧ chatHistory st' = chatHistory st
  ∧ socketToUserMap st' = <[sid := mkUserInfo user room]> (socketToUserMap st)
  ∧ adapter st' = <[room := {[sid]} ∪ occupants room st]> (adapter st).
Proof.
  unfold join_new, members, occupants. cbn [fst]. simpl.
  destruct (rooms st !! room) as [s|] eqn:Hs; simpl; repeat split.
  - apply map_eq. intros r. destruct (decide (r = room)) as [->|Hne].
    + rewrite lookup_alter_eq, lookup_insert_eq, Hs. reflexivity.
    + rewrite lookup_alter_ne, lookup_insert_ne by congruence. reflexivity.
  - apply map_eq. intros r. destruct (decide (r = room)) as [->|Hne].
    + rewrite lookup_alter_eq, !lookup_insert_eq. reflexivity.
    + rewrite lookup_alter_ne, !lookup_insert_ne by congruence. reflexivity.
Qed.

Lemma on_disconnect_state sid st :
  let st' := (on_disconnect sid st).1 in
  rooms st' = match socketToUserMap st !! sid with
              | Some p => vacate_rooms (username p) (roomId p) (rooms st)
              | None => rooms st
              end
  ∧ chatHistory st' = match socketToUserMap st !! sid with
                      | Some p => vacate_history (username p) (roomId p)
                                    (rooms st) (chatHistory st)
                      | None => chatHistory st
                      end
  ∧ socketToUserMap st' = delete sid (socketToUserMap st)
  ∧ adapter st' = (λ S, S ∖ {[sid]}) <$> adapter st.
Proof.
  unfold on_disconnect. simpl.
  destruct (socketToUserMap st !! sid) as [p|] eqn:Hp; [|repeat split].
  destruct (rooms st !! roomId p) as [s|] eqn:Hs.
  - cbn [fst].
    destruct (cleanupRoom_after_delete (username p) (roomId p)
                (socket_leaveAll sid st)) as (Hr & Hh & Hm & Ha).
    simpl in *. rewrite Hr, Hh, Hm, Ha. repeat split.
  - unfold vacate_rooms, vacate_history. rewrite Hs. repeat split.
Qed.

Lemma on_send_message_accepted sid room text user timestamp clock st :
  accepted sid room text user st = true →
  let msg := build_msg text user timestamp clock in
  let st' := (on_send_message sid room text user timestamp clock st).1 in
  rooms st' = rooms st
  ∧ chatHistory st' = <[room := push_bounded msg (snapshot room st)]> (chatHistory st)
  ∧ socketToUserMap st' = socketToUserMap st
  ∧ adapter st' = adapter st
  ∧ (on_send_message sid room text user timestamp clock st).2
    = [socket_to_emit sid room st' (receive_message msg)].
Proof.
  unfold accepted. rewrite !andb_true_iff, !negb_true_iff.
  intros [[[Hv Ht] Hu] Ha]. unfold on_send_message, snapshot.
  rewrite Hv, Ht, Hu, Ha. simpl.
  destruct (chatHistory st !! room) as [h|] eqn:Hh; simpl; repeat split.
  - apply map_eq. intros r. destruct (decide (r = room)) as [->|Hne].
    + rewrite lookup_alter_eq, lookup_insert_eq, Hh. reflexivity.
    + rewrite lookup_alter_ne, lookup_insert_ne by congruence. reflexivity.
  - apply map_eq. intros r. destruct (decide (r = room)) as [->|Hne].
    + rewrite lookup_alter_eq, !lookup_insert_eq. reflexivity.
    + rewrite lookup_alter_ne, !lookup_insert_ne by congruence. reflexivity.
Qed.

Lemma on_send_message_rejected sid room text user timestamp clock st :
  accepted sid room text user st = false →
  (on_send_message sid room text user timestamp clock st).1 = st.
Proof.
  unfold accepted, on_send_message. intros Hacc.
  destruct (isValidUUID room); [|reflexivity].
  destruct (blank text); [reflexivity|].
  destruct (blank user); [reflexivity|].
  simpl in Hacc. rewrite Hacc. reflexivity.
Qed.

Lemma on_join_room_valid sid room user st :
  valid_join room user = true →
  on_join_room sid room user st
  = let '(st1, out1) :=
      match socketToUserMap st !! sid with
      | Some previousInfo => leave_previous sid previousInfo st
      | None => (st, [])
      end in
    let '(st2, out2) := join_new sid room (trim user) st1 in
    (st2, out1 ++ out2).
Proof.
  unfold valid_join. rewrite andb_true_iff, negb_true_iff. intros [Hv Hu].
  unfold on_join_room. rewrite Hv, Hu. reflexivity.
Qed.

Lemma on_join_room_invalid sid room user st :
  valid_join room user = false →
  (on_join_room sid room user st).1 = st.
Proof.
  unfold valid_join, on_join_room. intros Hv.
  destruct (isValidUUID room); [|reflexivity].
  destruct (blank user); [reflexivity | discriminate].
Qed.

Lemma on_join_room_state sid room user st :
  valid_join room user = true →
  let prev := socketToUserMap st !! sid in
  let st' := (on_join_room sid room user st).1 in
  rooms st'
  = <[room := set_add (trim user) (default [] (vacated_rooms prev st !! room))]>
      (vacated_rooms prev st)
  ∧ chatHistory st' = vacated_history prev st
  ∧ socketToUserMap st' = <[sid := mkUserInfo (trim user) room]> (socketToUserMap st).
Proof.
  intros Hv. cbv zeta. rewrite (on_join_room_valid _ _ _ _ Hv).
  destruct (socketToUserMap st !! sid) as [p|] eqn:Hp.
  - pose proof (leave_previous_state sid p st) as (Hr & Hh & Hm & _).
    destruct (leave_previous sid p st) as [st1 out1]. cbn [fst] in *.
    pose proof (join_new_state sid room (trim user) st1) as (Hr' & Hh' & Hm' & _).
    destruct (join_new sid room (trim user) st1) as [st2 out2]. cbn [fst] in *.
    unfold members in Hr'. rewrite Hr', Hh', Hm', Hr, Hh, Hm. repeat split.
  - pose proof (join_new_state sid room (trim user) st) as (Hr' & Hh' & Hm' & _).
    destruct (join_new sid room (trim user) st) as [st2 out2]. cbn [fst] in *.
    unfold members in Hr'. rewrite Hr', Hh', Hm'. repeat split.
Qed.

(** ** The vacate step on the tables *)

Lemma lookup_vacate_rooms user room rs r :
  vacate_rooms user room rs !! r
  = if decide (r = room)
    then match rs !! room with
         | Some s => if decide (set_delete user s = []) then None
                     else Some (set_delete user s)
         | None => None
         end
    else rs !! r.
Proof.
  unfold vacate_rooms. destruct (decide (r = room)) as [->|Hne].
  - destruct (rs !! room) as [s|] eqn:Hs; [|assumption].
    destruct (decide (set_delete user s = [])).
    + apply lookup_delete_eq.
    + apply lookup_insert_eq.
  - destruct (rs !! room) as [s|] eqn:Hs; [|reflexivity].
    destruct (decide (set_delete user s = [])).
    + apply lookup_delete_ne. congruence.
    + apply lookup_insert_ne. congruence.
Qed.

Lemma members_vacate_rooms user room rs r :
  default [] (vacate_rooms user room rs !! r)
  = if decide (r = room) then set_delete user (default [] (rs !! r))
    else default [] (rs !! r).
Proof.
  rewrite lookup_vacate_rooms. destruct (decide (r = room)) as [->|Hne]; [|reflexivity].
  destruct (rs !! room) as [s|]; [|reflexivity].
  destruct (decide (set_delete user s = [])) as [He|He]; simpl; congruence.
Qed.

Lemma elem_of_vacated_rooms prev st r u :
  u ∈ default [] (vacated_rooms prev st !! r)
  ↔ member st r u ∧ prev ≠ Some (mkUserInfo u r).
Proof.
  unfold member, members. destruct prev as [[pu pr]|]; simpl.
  - rewrite members_vacate_rooms. destruct (decide (r = pr)) as [->|Hne].
    + rewrite elem_of_set_delete. split.
      * intros [Hin Hu]. split; [assumption | congruence].
      * intros [Hin Hp]. split; [assumption | congruence].
    + split; [intros Hin; split; [assumption | congruence] | tauto].
  - split; [intros Hin; split; [assumption | congruence] | tauto].
Qed.

Lemma vacated_rooms_nonempty prev st r s :
  (∀ room s, rooms st !! room = Some s → s ≠ []) →
  vacated_rooms prev st !! r = Some s → s ≠ [].
Proof.
  intros Hne. destruct prev as [[pu pr]|]; simpl; [|apply Hne].
  rewrite lookup_vacate_rooms. destruct (decide (r = pr)) as [->|]; [|apply Hne].
  destruct (rooms st !! pr) as [s0|]; [|discriminate].
  destruct (decide (set_delete pu s0 = [])); [discriminate|]. congruence.
Qed.

Lemma vacated_rooms_nodup prev st r s :
  (∀ room s, rooms st !! room = Some s → NoDup s) →
  vacated_rooms prev st !! r = Some s → NoDup s.
Proof.
  intros Hnd. destruct prev as [[pu pr]|]; simpl; [|apply Hnd].
  rewrite lookup_vacate_rooms. destruct (decide (r = pr)) as [->|]; [|apply Hnd].
  destruct (rooms st !! pr) as [s0|] eqn:Hs0; [|discriminate].
  destruct (decide (set_delete pu s0 = [])); [discriminate|].
  intros [= <-]. apply NoDup_set_delete. eapply Hnd. eassumption.
Qed.

Lemma on_join_room_adapter sid room user st :
  valid_join room user = true →
  let a1 := vacated_adapter sid (socketToUserMap st !! sid) st in
  adapter (on_join_room sid room user st).1
  = <[room := {[sid]} ∪ default ∅ (a1 !! room)]> a1.
Proof.
  intros Hv. cbv zeta. rewrite (on_join_room_valid _ _ _ _ Hv).
  destruct (socketToUserMap st !! sid) as [p|] eqn:Hp.
  - pose proof (leave_previous_state sid p st) as (_ & _ & _ & Ha).
    destruct (leave_previous sid p st) as [st1 out1]. cbn [fst] in *.
    pose proof (join_new_state sid room (trim user) st1) as (_ & _ & _ & Ha').
    destruct (join_new sid room (trim user) st1) as [st2 out2]. cbn [fst] in *.
    unfold occupants in Ha'. rewrite Ha', Ha. reflexivity.
  - pose proof (join_new_state sid room (trim user) st) as (_ & _ & _ & Ha').
    destruct (join_new sid room (trim user) st) as [st2 out2]. cbn [fst] in *.
    exact Ha'.
Qed.

(** ** The invariant *)

Lemma Inv_init : Inv init.
Proof.
  split.
  - intros room user Hm. unfold member, members in Hm. simpl in Hm.
    rewrite lookup_empty in Hm. inversion Hm.
  - intros room s Hs. simpl in Hs. rewrite lookup_empty in Hs. discriminate.
  - intros room s Hs. simpl in Hs. rewrite lookup_empty in Hs. discriminate.
  - intros sid room. unfold occupants. simpl. rewrite lookup_empty. simpl. split.
    + intros Hin. apply not_elem_of_empty in Hin. contradiction.
    + intros [user Hu]. rewrite lookup_empty in Hu. discriminate.
Qed.

(** After the vacate step for [sid], every member is named by another
    connection. *)
Lemma vacated_named_by_other sid st r u :
  Inv st →
  u ∈ default [] (vacated_rooms (socketToUserMap st !! sid) st !! r) →
  ∃ sid', sid' ≠ sid ∧ socketToUserMap st !! sid' = Some (mkUserInfo u r).
Proof.
  intros HI Hin. apply elem_of_vacated_rooms in Hin as [Hm Hp].
  destruct (inv_named st HI r u Hm) as [sid' Hsid'].
  exists sid'. split; [|assumption]. intros ->. congruence.
Qed.

Lemma vacated_occupants sid st r sid' :
  Inv st →
  sid' ∈ default ∅ (vacated_adapter sid (socketToUserMap st !! sid) st !! r)
  ↔ sid' ≠ sid ∧ ∃ u, socketToUserMap st !! sid' = Some (mkUserInfo u r).
Proof.
  intros HI. pose proof (inv_adapter st HI sid' r) as Hocc. unfold occupants in Hocc.
  destruct (socketToUserMap st !! sid) as [[pu pr]|] eqn:Hp; simpl.
  - destruct (decide (r = pr)) as [->|Hne].
    + rewrite lookup_alter_eq.
      destruct (adapter st !! pr) as [S|]; simpl in *.
      * rewrite elem_of_difference, elem_of_singleton, Hocc. tauto.
      * rewrite <- Hocc. split; [intros Hin | intros [_ Hin]];
          apply not_elem_of_empty in Hin; contradiction.
    + rewrite lookup_alter_ne by congruence. rewrite Hocc. split.
      * intros [u Hu]. split; [|eauto]. intros ->. congruence.
      * tauto.
  - rewrite Hocc. split.
    + intros [u Hu]. split; [|eauto]. intros ->. congruence.
    + tauto.
Qed.

Lemma Inv_join sid room user st :
  Inv st → Inv (on_join_room sid room user st).1.
Proof.
  intros HI. destruct (valid_join room user) eqn:Hv;
    [|rewrite on_join_room_invalid by assumption; assumption].
  destruct (on_join_room_state sid room user st Hv) as (Hr & _ & Hm).
  pose proof (on_join_room_adapter sid room user st Hv) as Ha. cbv zeta in Ha.
  split.
  - intros r u. unfold member, members, named. rewrite Hr, Hm.
    destruct (decide (r = room)) as [->|Hne].
    + rewrite lookup_insert_eq. simpl. rewrite elem_of_set_add.
      intros [Hin| ->].
      * destruct (vacated_named_by_other sid st room u HI Hin) as (sid' & Hs & Hn).
        exists sid'. rewrite lookup_insert_ne by congruence. assumption.
      * exists sid. apply lookup_insert_eq.
    + rewrite lookup_insert_ne by congruence. intros Hin.
      destruct (vacated_named_by_other sid st r u HI Hin) as (sid' & Hs & Hn).
      exists sid'. rewrite lookup_insert_ne by congruence. assumption.
  - intros r s. rewrite Hr. destruct (decide (r = room)) as [->|Hne].
    + rewrite lookup_insert_eq. intros [= <-]. apply set_add_nonempty.
    + rewrite lookup_insert_ne by congruence.
      apply vacated_rooms_nonempty, (inv_nonempty st HI).
  - intros r s. rewrite Hr. destruct (decide (r = room)) as [->|Hne].
    + rewrite lookup_insert_eq. intros [= <-]. apply NoDup_set_add.
      destruct (vacated_rooms (socketToUserMap st !! sid) st !! room) as [s0|] eqn:Hs0.
      * simpl. eapply vacated_rooms_nodup; [apply (inv_nodup st HI) | eassumption].
      * apply NoDup_nil_2.
    + rewrite lookup_insert_ne by congruence.
      apply vacated_rooms_nodup, (inv_nodup st HI).
  - intros sid' r. unfold occupants. rewrite Ha, Hm.
    destruct (decide (r = room)) as [->|Hr'].
    + rewrite lookup_insert_eq. simpl.
      rewrite elem_of_union, elem_of_singleton, (vacated_occupants sid st room sid' HI).
      destruct (decide (sid' = sid)) as [->|Hs].
      * rewrite lookup_insert_eq. split; [eauto | auto].
      * rewrite lookup_insert_ne by congruence. tauto.
    + rewrite lookup_insert_ne by congruence.
      rewrite (vacated_occupants sid st r sid' HI).
      destruct (decide (sid' = sid)) as [->|Hs].
      * rewrite lookup_insert_eq. split; [tauto | intros [u [= _ Heq]]; congruence].
      * rewrite lookup_insert_ne by congruence. tauto.
Qed.

Lemma Inv_disconnect sid st : Inv st → Inv (on_disconnect sid st).1.
Proof.
  intros HI. destruct (on_disconnect_state sid st) as (Hr & _ & Hm & Ha).
  change (rooms (on_disconnect sid st).1
          = vacated_rooms (socketToUserMap st !! sid) st) in Hr.
  split.
  - intros r u. unfold member, members, named. rewrite Hr, Hm. intros Hin.
    destruct (vacated_named_by_other sid st r u HI Hin) as (sid' & Hs & Hn).
    exists sid'. rewrite lookup_delete_ne by congruence. assumption.
  - intros r s. rewrite Hr. apply vacated_rooms_nonempty, (inv_nonempty st HI).
  - intros r s. rewrite Hr. apply vacated_rooms_nodup, (inv_nodup st HI).
  - intros sid' r. unfold occupants. rewrite Ha, Hm, lookup_fmap.
    pose proof (inv_adapter st HI sid' r) as Hocc. unfold occupants in Hocc.
    destruct (decide (sid' = sid)) as [->|Hs].
    + rewrite lookup_delete_eq. split; [|intros [u Hu]; discriminate].
      destruct (adapter st !! r) as [S|]; simpl; intros Hin.
      * apply elem_of_difference in Hin as [_ Hin]. exfalso. apply Hin.
        apply elem_of_singleton. reflexivity.
      * apply not_elem_of_empty in Hin. contradiction.
    + rewrite lookup_delete_ne by congruence. rewrite <- Hocc.
      destruct (adapter st !! r) as [S|]; simpl; [|reflexivity].
      rewrite elem_of_difference, elem_of_singleton. tauto.
Qed.

Lemma Inv_send sid room text user timestamp clock st :
  Inv st → Inv (on_send_message sid room text user timestamp clock st).1.
Proof.
  intros HI. destruct (accepted sid room text user st) eqn:Hacc;
    [|rewrite on_send_message_rejected by assumption; assumption].
  destruct (on_send_message_accepted sid room text user timestamp clock st Hacc)
    as (Hr & _ & Hm & Ha & _).
  destruct HI as [H1 H2 H3 H4]. split.
  - intros r u. unfold member, members, named. rewrite Hr, Hm. apply H1.
  - intros r s. rewrite Hr. apply H2.
  - intros r s. rewrite Hr. apply H3.
  - intros sid' r. unfold occupants. rewrite Ha, Hm. apply H4.
Qed.

Lemma Inv_step st ev : Inv st → Inv (step st ev).
Proof.
  intros HI. destruct ev; unfold step; simpl.
  - apply Inv_join, HI.
  - apply Inv_send, HI.
  - apply Inv_disconnect, HI.
Qed.

Lemma Inv_run st evs : Inv st → Inv (run st evs).
Proof.
  revert st. induction evs as [|ev evs IH]; intros st HI; [assumption|].
  apply IH, Inv_step, HI.
Qed.

Lemma Inv_reachable st : reachable st → Inv st.
Proof. intros [evs ->]. apply Inv_run, Inv_init. Qed.

(** ** Connections that do not share a name *)

Lemma NoDup_snd_inj {A B} (l : list (A * B)) i j x :
  NoDup l.*2 → (i, x) ∈ l → (j, x) ∈ l → i = j.
Proof.
  induction l as [|[k y] l IH]; intros Hnd Hi Hj; [inversion Hi|].
  rewrite fmap_cons in Hnd. apply NoDup_cons in Hnd as [Hy Hnd].
  apply elem_of_cons in Hi as [Hi|Hi]; apply elem_of_cons in Hj as [Hj|Hj].
  - congruence.
  - exfalso. apply Hy. injection Hi as -> ->.
    apply (list_elem_of_fmap_2 snd) in Hj. exact Hj.
  - exfalso. apply Hy. injection Hj as -> ->.
    apply (list_elem_of_fmap_2 snd) in Hi. exact Hi.
  - apply IH; assumption.
Qed.

Lemma unshared_inj st sid1 sid2 ui :
  unshared st →
  socketToUserMap st !! sid1 = Some ui → socketToUserMap st !! sid2 = Some ui →
  sid1 = sid2.
Proof.
  intros Hu H1 H2. apply elem_of_map_to_list in H1, H2.
  exact (NoDup_snd_inj _ _ _ _ Hu H1 H2).
Qed.

(** [unshared] says exactly that [socketToUserMap] is injective. *)
Lemma unshared_iff st :
  unshared st ↔
  ∀ sid1 sid2 ui,
    socketToUserMap st !! sid1 = Some ui → socketToUserMap st !! sid2 = Some ui →
    sid1 = sid2.
Proof.
  split.
  - intros Hu sid1 sid2 ui. apply unshared_inj, Hu.
  - intros Hinj. unfold unshared. apply NoDup_fmap_2_strong.
    + intros [i x] [j y] Hi Hj Heq. simpl in Heq. subst y.
      apply elem_of_map_to_list in Hi, Hj. f_equal. eapply Hinj; eassumption.
    + apply NoDup_map_to_list.
Qed.

(** After the vacate step for [sid], the other connections keep their seats,
    as long as none of them shares the name of [sid]. *)
Lemma vacated_keeps_others sid sid' st r u :
  unshared st → sessions_seated st →
  sid' ≠ sid → socketToUserMap st !! sid' = Some (mkUserInfo u r) →
  u ∈ default [] (vacated_rooms (socketToUserMap st !! sid) st !! r).
Proof.
  intros Hu Hs Hne Hsid'. apply elem_of_vacated_rooms. split.
  - apply Hs. exists sid'. assumption.
  - intros Hp. apply Hne. eapply unshared_inj; eassumption.
Qed.

Lemma vacated_history_follows prev st :
  history_follows_rooms st →
  ∀ room, vacated_rooms prev st !! room = None →
          vacated_history prev st !! room = None.
Proof.
  intros Hh room. destruct prev as [[pu pr]|]; simpl; [|apply Hh].
  rewrite lookup_vacate_rooms. unfold vacate_history.
  destruct (decide (room = pr)) as [->|Hne].
  - destruct (rooms st !! pr) as [s|] eqn:Hs; [|intros _; apply Hh; assumption].
    destruct (decide (set_delete pu s = [])); [|discriminate].
    intros _. apply lookup_delete_eq.
  - intros Hr. destruct (rooms st !! pr) as [s|]; [|apply Hh; assumption].
    destruct (decide (set_delete pu s = [])); [|apply Hh; assumption].
    rewrite lookup_delete_ne by congruence. apply Hh; assumption.
Qed.

(** A room that the vacate step removes loses its history in the same step. *)
Lemma vacated_together prev st room :
  is_Some (rooms st !! room) →
  vacated_rooms prev st !! room = None →
  vacated_history prev st !! room = None.
Proof.
  intros [s Hs]. destruct prev as [[pu pr]|]; simpl; [|congruence].
  rewrite lookup_vacate_rooms. unfold vacate_history.
  destruct (decide (room = pr)) as [->|Hne]; [|congruence].
  rewrite Hs. destruct (decide (set_delete pu s = [])); [|discriminate].
  intros _. apply lookup_delete_eq.
Qed.

Lemma authorized_session sid room user st :
  authorized sid room user st = true ↔
  socketToUserMap st !! sid = Some (mkUserInfo (trim user) room).
Proof.
  unfold authorized. destruct (socketToUserMap st !! sid) as [[pu pr]|]; simpl.
  - rewrite andb_true_iff, !bool_decide_eq_true. split.
    + intros [-> ->]. reflexivity.
    + intros [= -> ->]. split; reflexivity.
  - split; discriminate.
Qed.

Lemma accepted_authorized sid room text user st :
  accepted sid room text user st = true →
  socketToUserMap st !! sid = Some (mkUserInfo (trim user) room).
Proof.
  unfold accepted. rewrite !andb_true_iff. intros [_ Ha].
  apply authorized_session, Ha.
Qed.

Lemma seated_step st ev :
  unshared st → sessions_seated st → sessions_seated (step st ev).
Proof.
  intros Hu Hs. destruct ev as [sid room user|sid room text user ts clock|sid];
    unfold step; simpl.
  - destruct (valid_join room user) eqn:Hv;
      [|rewrite on_join_room_invalid by assumption; assumption].
    destruct (on_join_room_state sid room user st Hv) as (Hr & _ & Hm).
    intros r u [sid' Hsid']. unfold member, members. rewrite Hr. rewrite Hm in Hsid'.
    destruct (decide (sid' = sid)) as [->|Hne].
    + rewrite lookup_insert_eq in Hsid'. injection Hsid' as <- <-.
      rewrite lookup_insert_eq. simpl. apply elem_of_set_add. auto.
    + rewrite lookup_insert_ne in Hsid' by congruence.
      pose proof (vacated_keeps_others sid sid' st r u Hu Hs Hne Hsid') as Hin.
      destruct (decide (r = room)) as [->|Hr'].
      * rewrite lookup_insert_eq. simpl. apply elem_of_set_add. auto.
      * rewrite lookup_insert_ne by congruence. assumption.
  - destruct (accepted sid room text user st) eqn:Hacc;
      [|rewrite on_send_message_rejected by assumption; assumption].
    destruct (on_send_message_accepted sid room text user ts clock st Hacc)
      as (Hr & _ & Hm & _).
    intros r u. unfold named, member, members. rewrite Hr, Hm. apply Hs.
  - destruct (on_disconnect_state sid st) as (Hr & _ & Hm & _).
    change (rooms (on_disconnect sid st).1
            = vacated_rooms (socketToUserMap st !! sid) st) in Hr.
    intros r u [sid' Hsid']. unfold member, members. rewrite Hr. rewrite Hm in Hsid'.
    destruct (decide (sid' = sid)) as [->|Hne].
    + rewrite lookup_delete_eq in Hsid'. discriminate.
    + rewrite lookup_delete_ne in Hsid' by congruence.
      exact (vacated_keeps_others sid sid' st r u Hu Hs Hne Hsid').
Qed.

Lemma history_step st ev :
  sessions_seated st → history_follows_rooms st →
  history_follows_rooms (step st ev).
Proof.
  intros Hs Hh. destruct ev as [sid room user|sid room text user ts clock|sid];
    unfold step; simpl.
  - destruct (valid_join room user) eqn:Hv;
      [|rewrite on_join_room_invalid by assumption; assumption].
    destruct (on_join_room_state sid room user st Hv) as (Hr & Hc & _).
    intros r. rewrite Hr, Hc. destruct (decide (r = room)) as [->|Hne].
    + rewrite lookup_insert_eq. discriminate.
    + rewrite lookup_insert_ne by congruence. apply vacated_history_follows, Hh.
  - destruct (accepted sid room text user st) eqn:Hacc;
      [|rewrite on_send_message_rejected by assumption; assumption].
    destruct (on_send_message_accepted sid room text user ts clock st Hacc)
      as (Hr & Hc & _).
    intros r. rewrite Hr, Hc. intros Hnone.
    destruct (decide (r = room)) as [->|Hne].
    + exfalso. assert (Hin : member st room (trim user)).
      { apply Hs. exists sid. eapply accepted_authorized, Hacc. }
      unfold member, members in Hin. rewrite Hnone in Hin. inversion Hin.
    + rewrite lookup_insert_ne by congruence. apply Hh, Hnone.
  - destruct (on_disconnect_state sid st) as (Hr & Hc & _).
    intros r. rewrite Hr, Hc.
    exact (vacated_history_follows (socketToUserMap st !! sid) st Hh r).
Qed.

Lemma seated_run st evs :
  Forall unshared (visited st evs) →
  sessions_seated st → history_follows_rooms st →
  sessions_seated (run st evs) ∧ history_follows_rooms (run st evs).
Proof.
  revert st. induction evs as [|ev evs IH]; intros st Hu Hs Hh; [split; assumption|].
  simpl in Hu. apply Forall_cons in Hu as [Hu Hrest]. simpl. apply IH.
  - exact Hrest.
  - apply seated_step; assumption.
  - apply history_step; assumption.
Qed.

Lemma seated_init : sessions_seated init ∧ history_follows_rooms init.
Proof.
  split.
  - intros room user [sid Hsid]. simpl in Hsid. rewrite lookup_empty in Hsid.
    discriminate.
  - intros room _. apply lookup_empty.
Qed.

(** Whatever the state, a step that removes a room from [rooms] removes its
    history with it. *)
Lemma step_deletes_together st ev room :
  is_Some (rooms st !! room) → rooms (step st ev) !! room = None →
  chatHistory (step st ev) !! room = None.
Proof.
  intros Hsome. destruct ev as [sid r user|sid r text user ts clock|sid];
    unfold step; simpl.
  - destruct (valid_join r user) eqn:Hv.
    + destruct (on_join_room_state sid r user st Hv) as (Hr & Hc & _).
      rewrite Hr, Hc. destruct (decide (room = r)) as [->|Hne].
      * rewrite lookup_insert_eq. discriminate.
      * rewrite lookup_insert_ne by congruence. apply vacated_together, Hsome.
    + rewrite on_join_room_invalid by assumption.
      intros Hnone. rewrite Hnone in Hsome. destruct Hsome; discriminate.
  - destruct (accepted sid r text user st) eqn:Hacc.
    + destruct (on_send_message_accepted sid r text user ts clock st Hacc)
        as (Hr & _). rewrite Hr.
      intros Hnone. rewrite Hnone in Hsome. destruct Hsome; discriminate.
    + rewrite on_send_message_rejected by assumption.
      intros Hnone. rewrite Hnone in Hsome. destruct Hsome; discriminate.
  - destruct (on_disconnect_state sid st) as (Hr & Hc & _). rewrite Hr, Hc.
    exact (vacated_together (socketToUserMap st !! sid) st room Hsome).
Qed.

Lemma present_iff_occupied st room :
  Inv st → is_Some (rooms st !! room) ↔ (0 < memberCount room st)%nat.
Proof.
  intros HI. unfold memberCount, members. split.
  - intros [s Hs]. rewrite Hs. simpl.
    pose proof (inv_nonempty st HI room s Hs). destruct s; [congruence | simpl; lia].
  - destruct (rooms st !! room) as [s|]; [eauto | simpl; lia].
Qed.

(** ** The bounded history *)

Lemma push_bounded_slice msg h : push_bounded msg h = slice_last 100 (h ++ [msg]).
Proof.
  unfold push_bounded, slice_last. cbv zeta.
  destruct (decide (100 < length (h ++ [msg]))%nat) as [Hlt|Hge]; [reflexivity|].
  replace (length (h ++ [msg]) - 100)%nat with 0%nat by lia. reflexivity.
Qed.

Lemma slice_last_app_slice {A} n (h k : list A) :
  slice_last n (slice_last n h ++ k) = slice_last n (h ++ k).
Proof.
  unfold slice_last. rewrite !drop_app, !length_app, !length_drop, drop_drop.
  f_equal; f_equal; lia.
Qed.

Lemma slice_last_app_ge {A} n (h k : list A) :
  (n ≤ length k)%nat → slice_last n (h ++ k) = slice_last n k.
Proof.
  intros Hn. unfold slice_last. rewrite drop_app, length_app.
  rewrite drop_ge by lia. simpl. f_equal. lia.
Qed.

Lemma delivers_snapshot room st ev :
  delivers room st ev = true →
  ∃ msg, message_of ev = Some msg
         ∧ snapshot room (step st ev) = push_bounded msg (snapshot room st).
Proof.
  destruct ev as [sid r user|sid r text user ts clock|sid]; simpl; try discriminate.
  rewrite andb_true_iff, bool_decide_eq_true. intros [-> Hacc].
  exists (build_msg text user ts clock). split; [reflexivity|].
  destruct (on_send_message_accepted sid room text user ts clock st Hacc)
    as (_ & Hc & _).
  unfold step, snapshot at 1. simpl. rewrite Hc, lookup_insert_eq. reflexivity.
Qed.

Lemma all_delivered_length room st evs :
  all_delivered room st evs = true → length (messages_of evs) = length evs.
Proof.
  revert st. induction evs as [|ev evs IH]; intros st; simpl; [reflexivity|].
  rewrite andb_true_iff. intros [Hd Hrest].
  destruct (delivers_snapshot room st ev Hd) as (msg & Hmsg & _).
  unfold messages_of in *. simpl. rewrite Hmsg. simpl. f_equal. eapply IH, Hrest.
Qed.

Lemma all_delivered_snapshot room st evs :
  all_delivered room st evs = true → evs ≠ [] →
  snapshot room (run st evs) = slice_last 100 (snapshot room st ++ messages_of evs).
Proof.
  revert st. induction evs as [|ev evs IH]; intros st; simpl; [congruence|].
  rewrite andb_true_iff. intros [Hd Hrest] _.
  destruct (delivers_snapshot room st ev Hd) as (msg & Hmsg & Hsnap).
  unfold messages_of in *. simpl. rewrite Hmsg.
  destruct evs as [|ev' evs].
  - simpl. rewrite Hsnap. apply push_bounded_slice.
  - rewrite (IH (step st ev) Hrest) by congruence.
    rewrite Hsnap, push_bounded_slice, slice_last_app_slice, <- app_assoc.
    reflexivity.
Qed.

(** ** The emits of a join *)

Lemma leave_previous_out sid p st :
  (leave_previous sid p st).2
  = [io_to_emit (roomId p) (leave_previous sid p st).1
       (update_users (members (roomId p) (leave_previous sid p st).1))].
Proof. reflexivity. Qed.

Lemma join_new_out sid room user st :
  (join_new sid room user st).2
  = [socket_emit sid (chat_history (snapshot room (join_new sid room user st).1));
     io_to_emit room (join_new sid room user st).1
       (update_users (members room (join_new sid room user st).1))].
Proof. reflexivity. Qed.

(** A valid join of a connection that has an entry [p] goes through the
    state [mid] after the vacate step. *)
Lemma on_join_room_rejoin sid room user p st :
  valid_join room user = true →
  socketToUserMap st !! sid = Some p →
  let mid := (leave_previous sid p st).1 in
  let st' := (join_new sid room (trim user) mid).1 in
  on_join_room sid room user st
  = (st', [io_to_emit (roomId p) mid (update_users (members (roomId p) mid));
           socket_emit sid (chat_history (snapshot room st'));
           io_to_emit room st' (update_users (members room st'))]).
Proof.
  intros Hv Hp. cbv zeta. rewrite (on_join_room_valid _ _ _ _ Hv), Hp.
  rewrite (surjective_pairing (leave_previous sid p st)).
  rewrite (surjective_pairing (join_new sid room (trim user) _)).
  rewrite leave_previous_out, join_new_out. reflexivity.
Qed.

(** * The claims *)

(** ** Membership consistency *)

(** C1, as the code has it.  After every sequence of join, send and
    disconnect events, every username in a room's member set is named, with
    that room, by the entry of some connection in [socketToUserMap]; and the
    two sides agree entirely (a username is in the member set if and only if
    some entry names the pair) after every sequence during which no two
    connections held the same pair of username and room. *)
Theorem membership_consistency (evs : list Event) :
  (∀ room user, member (run init evs) room user → named (run init evs) room user)
  ∧ (Forall unshared (visited init evs) → membership_consistent (run init evs)).
Proof.
  pose proof (Inv_run init evs Inv_init) as HI. split.
  - apply (inv_named _ HI).
  - intros Hu room user. split.
    + apply (inv_named _ HI).
    + destruct seated_init as [Hs Hh].
      destruct (seated_run init evs Hu Hs Hh) as [Hseated _]. apply Hseated.
Qed.

(** [alice] and [bob] share [room_a]; after [alice] moves to [room_b] the two
    tables still agree on both of them. *)
Lemma membership_consistency_witness :
  let evs := [join_room conn1 room_a alice; join_room conn2 room_a bob;
              join_room conn1 room_b alice] in
  named (run init evs) room_a bob ∧ member (run init evs) room_b alice.
Proof.
  intros evs. destruct (membership_consistency evs) as [Hnamed Hiff]. split.
  - apply Hnamed. by_compute.
  - apply Hiff.
    + by_compute.
    + exists conn1. vm_compute. reflexivity.
Defined.

(** C1 as stated fails when two connections join one room under one
    username: the disconnect of the first takes the username out of the member
    set, and empties the room, while the entry of the second still names
    it. *)
Lemma membership_lost_with_shared_name :
  ¬ membership_consistent (run init shared_name_run).
Proof.
  intros Hc. assert (Hin : member (run init shared_name_run) room_a alice).
  { apply Hc. exists conn2. vm_compute. reflexivity. }
  vm_compute in Hin. inversion Hin.
Qed.

(** ** Room lifecycle *)

(** C2, as the code has it.  After every sequence of events, a room-id has
    an entry in [rooms] if and only if its member set has at least one
    member; whenever one more event takes the member count of a room from
    positive to zero, the same handler run removes the room's entry and its
    history; and a room-id without an entry in [rooms] has no history either
    after every sequence during which no two connections held the same pair
    of username and room. *)
Theorem room_lifecycle (evs : list Event) :
  (∀ room, is_Some (rooms (run init evs) !! room)
           ↔ (0 < memberCount room (run init evs))%nat)
  ∧ (∀ ev room,
       (0 < memberCount room (run init evs))%nat →
       memberCount room (step (run init evs) ev) = 0%nat →
       rooms (step (run init evs) ev) !! room = None
       ∧ chatHistory (step (run init evs) ev) !! room = None)
  ∧ (Forall unshared (visited init evs) → history_follows_rooms (run init evs)).
Proof.
  pose proof (Inv_run init evs Inv_init) as HI. split; [|split].
  - intros room. apply present_iff_occupied, HI.
  - intros ev room Hpos Hzero.
    assert (Hnone : rooms (step (run init evs) ev) !! room = None).
    { destruct (rooms (step (run init evs) ev) !! room) as [s|] eqn:Hs; [|reflexivity].
      exfalso. assert (Hpos' : (0 < memberCount room (step (run init evs) ev))%nat).
      { apply present_iff_occupied; [apply Inv_step, HI | eauto]. }
      lia. }
    split; [exact Hnone|].
    apply step_deletes_together; [|exact Hnone].
    apply present_iff_occupied; assumption.
  - intros Hu. destruct seated_init as [Hs Hh].
    destruct (seated_run init evs Hu Hs Hh) as [_ Hfollows]. exact Hfollows.
Qed.

(** [alice] is alone in [room_a] and has sent a message; her disconnect
    removes the room and the message together. *)
Lemma room_lifecycle_witness :
  let evs := [join_room conn1 room_a alice;
              send_message conn1 room_a (js "hi") alice None noon] in
  (rooms (step (run init evs) (disconnect conn1)) !! room_a = None
   ∧ chatHistory (step (run init evs) (disconnect conn1)) !! room_a = None)
  ∧ chatHistory (run init evs) !! room_b = None.
Proof.
  intros evs. destruct (room_lifecycle evs) as (_ & Hgone & Hfollows). split.
  - apply Hgone.
    + vm_compute. lia.
    + vm_compute. reflexivity.
  - apply Hfollows.
    + by_compute.
    + vm_compute. reflexivity.
Defined.

(** C2 as stated fails for a send from a connection whose entry names a room
    that [rooms] no longer holds: the handler checks the entry of
    [socketToUserMap] only, and creates a history for the room. *)
Lemma history_without_room :
  ¬ history_follows_rooms (run init orphan_history_run).
Proof.
  intros Hf. specialize (Hf room_a). vm_compute in Hf.
  specialize (Hf eq_refl). discriminate.
Qed.

(** ** History bound *)

(** C3.  After [N > 100] successful sends to a room, the history snapshot of
    the room is the last 100 of the [N] messages, in the order they were
    sent; after 101 sends it has length 100 and begins with the second
    message. *)
Theorem history_bound (st : State) (room : jsstr) (evs : list Event) :
  all_delivered room st evs = true →
  (100 < length evs)%nat →
  length (messages_of evs) = length evs
  ∧ snapshot room (run st evs) = drop (length evs - 100) (messages_of evs)
  ∧ length (snapshot room (run st evs)) = 100%nat
  ∧ (length evs = 101%nat →
     snapshot room (run st evs) !! 0%nat = messages_of evs !! 1%nat).
Proof.
  intros Hall HN. pose proof (all_delivered_length room st evs Hall) as Hlen.
  assert (Hsnap : snapshot room (run st evs)
                  = drop (length evs - 100) (messages_of evs)).
  { rewrite (all_delivered_snapshot room st evs Hall)
      by (destruct evs; simpl in *; [lia | congruence]).
    rewrite slice_last_app_ge by lia. unfold slice_last. rewrite Hlen. reflexivity. }
  split; [exact Hlen|]. split; [exact Hsnap|]. split.
  - rewrite Hsnap, length_drop. lia.
  - intros H101. rewrite Hsnap, H101, lookup_drop. reflexivity.
Qed.

(** 101 numbered sends of [alice]: the snapshot starts at the second one. *)
Lemma history_bound_witness :
  length (snapshot room_a (run (run init [join_room conn1 room_a alice])
                             (numbered_sends 101))) = 100%nat
  ∧ snapshot room_a (run (run init [join_room conn1 room_a alice])
                       (numbered_sends 101)) !! 0%nat
    = Some (mkMsg (js "1") alice noon).
Proof.
  destruct (history_bound (run init [join_room conn1 room_a alice]) room_a
              (numbered_sends 101)) as (_ & _ & Hlen & Hfirst).
  - vm_compute. reflexivity.
  - vm_compute. lia.
  - split; [exact Hlen|]. rewrite Hfirst by reflexivity. vm_compute. reflexivity.
Defined.

(** ** Authorization *)

Lemma unauthorized_not_authorized sid room user st :
  unauthorized sid room user st → authorized sid room user st = false.
Proof.
  unfold unauthorized, authorized. intros [Hnone|(ui & Hui & Hdiff)].
  - rewrite Hnone. reflexivity.
  - rewrite Hui. apply andb_false_iff.
    destruct Hdiff as [Hr|Hu]; [left | right]; apply bool_decide_eq_false; assumption.
Qed.

(** C4, as the code has it.  A [send-message] for which no entry of
    [socketToUserMap] exists for the connection, or whose entry has another
    room-id than the claimed one, or another username than the trimmed
    claimed one, leaves all tables unchanged and emits to the originating
    connection only: nothing when the room-id is valid and the text is empty
    after trimming, and otherwise exactly one [room-error]. *)
Theorem unauthorized_send (sid room text user : jsstr) (timestamp : option jsstr)
    (clock : jsstr) (st : State) :
  unauthorized sid room user st →
  (on_send_message sid room text user timestamp clock st).1 = st
  ∧ if isValidUUID room && blank text
    then (on_send_message sid room text user timestamp clock st).2 = []
    else room_error_only sid (on_send_message sid room text user timestamp clock st).2.
Proof.
  intros Hun. apply unauthorized_not_authorized in Hun.
  unfold on_send_message, room_error_only, socket_emit.
  destruct (isValidUUID room); simpl; [|eauto].
  destruct (blank text); simpl; [eauto|].
  destruct (blank user); simpl; [eauto|].
  rewrite Hun. simpl. eauto.
Qed.

(** [conn2] is in [room_a] as [bob] and claims to be [alice]. *)
Lemma unauthorized_send_witness :
  let st := run init [join_room conn1 room_a alice; join_room conn2 room_a bob] in
  (on_send_message conn2 room_a (js "hi") alice None noon st).1 = st
  ∧ room_error_only conn2 (on_send_message conn2 room_a (js "hi") alice None noon st).2.
Proof.
  intros st.
  refine (unauthorized_send conn2 room_a (js "hi") alice None noon st _).
  right. exists (mkUserInfo bob room_a). split; [vm_compute; reflexivity|].
  right. vm_compute. discriminate.
Defined.

(** C4 as stated fails when the text is blank: the handler returns at the
    check of the text, before it looks at [socketToUserMap], and emits
    nothing. *)
Lemma unauthorized_blank_send_is_silent :
  unauthorized conn1 room_a alice init
  ∧ ¬ room_error_only conn1
        (on_send_message conn1 room_a (js "   ") alice None noon init).2.
Proof.
  split.
  - left. reflexivity.
  - intros [reason Hout]. vm_compute in Hout. discriminate.
Qed.

(** ** Empty messages *)

(** C5, as the code has it.  A [send-message] whose room-id is a valid
    identifier and whose text is empty after trimming is dropped: no table
    changes and nothing is emitted to any connection, whatever the username,
    the timestamp and the state. *)
Theorem empty_text_dropped (sid room text user : jsstr) (timestamp : option jsstr)
    (clock : jsstr) (st : State) :
  isValidUUID room = true →
  trim text = [] →
  on_send_message sid room text user timestamp clock st = (st, []).
Proof.
  intros Hv Ht. unfold on_send_message, blank. rewrite Hv, Ht. simpl.
  rewrite orb_true_r. reflexivity.
Qed.

Lemma empty_text_dropped_witness :
  on_send_message conn1 room_a (js "  ") bob None noon
    (run init [join_room conn1 room_a alice])
  = (run init [join_room conn1 room_a alice], []).
Proof.
  apply empty_text_dropped; vm_compute; reflexivity.
Defined.

(** C5 as stated fails when the claimed room-id is not a valid identifier:
    that check comes first and answers with a [room-error]. *)
Lemma empty_text_with_bad_room_is_reported :
  trim (js " ") = []
  ∧ (on_send_message conn1 (js "lobby") (js " ") alice None noon init).2
    = [mkEmit {[conn1]} (room_error (js "Invalid room ID"))].
Proof. split; vm_compute; reflexivity. Qed.

(** ** Rejoin *)

(** C6, as the code has it.  Let a connection's entry of [socketToUserMap]
    name username [u] and room [A], and let it perform a valid join of another
    room [B].  After the join its entry names [B], the trimmed new username
    is in the member set of [B], [u] is not in that of [A], the member count
    of [A] is one lower provided [u] was in the member set of [A] before, [A]
    and its history are gone if [u] was the only member, and the first emit
    is the updated member list of [A], to the connections that remain in the
    socket.io room [A]. *)
Theorem rejoin_moves_member (st st' : State) (out : list Emit)
    (sid A B u user : jsstr) :
  reachable st →
  socketToUserMap st !! sid = Some (mkUserInfo u A) →
  valid_join B user = true →
  A ≠ B →
  on_join_room sid B user st = (st', out) →
  socketToUserMap st' !! sid = Some (mkUserInfo (trim user) B)
  ∧ member st' B (trim user)
  ∧ ¬ member st' A u
  ∧ (member st A u → S (memberCount A st') = memberCount A st)
  ∧ (members A st = [u] → rooms st' !! A = None ∧ chatHistory st' !! A = None)
  ∧ occupants A st' = occupants A st ∖ {[sid]}
  ∧ out = [mkEmit (occupants A st') (update_users (members A st'));
           mkEmit {[sid]} (chat_history (snapshot B st'));
           mkEmit (occupants B st') (update_users (members B st'))].
Proof.
  intros Hreach Hp Hv HAB Hjoin. apply Inv_reachable in Hreach as HI.
  destruct (on_join_room_state sid B user st Hv) as (Hr & Hc & Hm).
  pose proof (on_join_room_adapter sid B user st Hv) as Ha.
  pose proof (on_join_room_rejoin sid B user _ st Hv Hp) as Hout.
  cbv zeta in Ha, Hout. rewrite Hjoin in Hr, Hc, Hm, Ha. rewrite Hp in Hr, Hc, Ha.
  cbn [fst vacated_rooms vacated_history vacated_adapter username roomId]
    in Hr, Hc, Hm, Ha, Hout.
  assert (Hmembers : members A st' = set_delete u (members A st)).
  { unfold members. rewrite Hr, lookup_insert_ne by congruence.
    rewrite members_vacate_rooms. destruct (decide (A = A)); congruence. }
  split; [rewrite Hm; apply lookup_insert_eq|].
  split; [|split; [|split; [|split; [|split]]]].
  - unfold member, members. rewrite Hr, lookup_insert_eq. simpl.
    apply elem_of_set_add. auto.
  - unfold member. rewrite Hmembers, elem_of_set_delete. tauto.
  - intros Hmem. unfold member, members in Hmem.
    destruct (rooms st !! A) as [s|] eqn:Hs; [simpl in Hmem | inversion Hmem].
    unfold memberCount. rewrite Hmembers. unfold members. rewrite Hs. simpl.
    apply length_set_delete; [apply (inv_nodup st HI A s Hs) | exact Hmem].
  - unfold members. intros Honly.
    destruct (rooms st !! A) as [s|] eqn:Hs; [simpl in Honly | discriminate].
    subst s.
    assert (Hempty : set_delete u [u] = []).
    { unfold set_delete. rewrite filter_cons.
      destruct (decide (u ≠ u)); [congruence | reflexivity]. }
    rewrite Hr, Hc, lookup_insert_ne by congruence.
    rewrite lookup_vacate_rooms. unfold vacate_history. rewrite Hs.
    destruct (decide (A = A)); [|congruence].
    destruct (decide (set_delete u [u] = [])); [|contradiction].
    split; [reflexivity | apply lookup_delete_eq].
  - unfold occupants. rewrite Ha, lookup_insert_ne, lookup_alter_eq by congruence.
    destruct (adapter st !! A) as [S0|]; simpl; [reflexivity|].
    apply set_eq. intros x. rewrite elem_of_difference. split; [|tauto].
    intros Hx. apply not_elem_of_empty in Hx. contradiction.
  - rewrite Hjoin in Hout.
    pose proof (f_equal fst Hout) as Hst'. pose proof (f_equal snd Hout) as Hout'.
    cbn [fst snd] in Hst', Hout'.
    pose proof (join_new_state sid B (trim user) (leave_previous sid (mkUserInfo u A) st).1)
      as (Hr2 & _ & _ & Ha2).
    cbv zeta in Hr2, Ha2. rewrite <- Hst' in Hr2, Ha2.
    assert (HoA : occupants A st'
                  = occupants A (leave_previous sid (mkUserInfo u A) st).1).
    { unfold occupants. rewrite Ha2, lookup_insert_ne by congruence. reflexivity. }
    assert (HmA : members A st'
                  = members A (leave_previous sid (mkUserInfo u A) st).1).
    { unfold members. rewrite Hr2, lookup_insert_ne by congruence. reflexivity. }
    rewrite Hout', HoA, HmA. unfold io_to_emit, socket_emit.
    rewrite <- Hst'. reflexivity.
Qed.

(** [alice] and [bob] are in [room_a]; [alice] moves to [room_b] and [bob]
    is told that he is alone. *)
Lemma rejoin_moves_member_witness :
  memberCount room_a (run init [join_room conn1 room_a alice;
                                join_room conn2 room_a bob;
                                join_room conn1 room_b (js " alice ")]) = 1%nat
  ∧ (on_join_room conn1 room_b (js " alice ")
       (run init [join_room conn1 room_a alice; join_room conn2 room_a bob])).2
    = [mkEmit {[conn2]} (update_users [bob]);
       mkEmit {[conn1]} (chat_history []);
       mkEmit {[conn1]} (update_users [alice])].
Proof.
  pose proof (rejoin_moves_member
    (run init [join_room conn1 room_a alice; join_room conn2 room_a bob])
    (run init [join_room conn1 room_a alice; join_room conn2 room_a bob;
               join_room conn1 room_b (js " alice ")])
    (on_join_room conn1 room_b (js " alice ")
       (run init [join_room conn1 room_a alice; join_room conn2 room_a bob])).2
    conn1 room_a room_b alice (js " alice ")) as H.
  destruct H as (_ & _ & _ & Hcount & _ & _ & Hout).
  - eexists. reflexivity.
  - vm_compute. reflexivity.
  - vm_compute. reflexivity.
  - vm_compute. discriminate.
  - apply surjective_pairing.
  - split.
    + assert (Hbefore : memberCount room_a
        (run init [join_room conn1 room_a alice; join_room conn2 room_a bob]) = 2%nat)
        by (vm_compute; reflexivity).
      assert (Hmem : member (run init [join_room conn1 room_a alice;
                                       join_room conn2 room_a bob]) room_a alice)
        by by_compute.
      specialize (Hcount Hmem). lia.
    + rewrite Hout. vm_compute. reflexivity.
Defined.

(** C6 as stated fails for a connection whose entry names a room in which
    its username is no longer a member: after [shared_name_run] the entry of
    [conn2] names [room_a], which is gone; its join of [room_b] finds nothing
    to remove and the member count of [room_a] stays what it was. *)
Lemma rejoin_without_seat_keeps_count :
  socketToUserMap (run init shared_name_run) !! conn2 = Some (mkUserInfo alice room_a)
  ∧ valid_join room_b alice = true
  ∧ room_a ≠ room_b
  ∧ S (memberCount room_a (on_join_room conn2 room_b alice (run init shared_name_run)).1)
    ≠ memberCount room_a (run init shared_name_run).
Proof.
  split; [vm_compute; reflexivity|]. split; [vm_compute; reflexivity|].
  split; vm_compute; discriminate.
Qed.

(** ** No self-echo *)

(** C7.  In every reachable state, a successful [send-message] emits exactly
    one event, the [receive-message] with the message built, and its
    recipients are the connections in the socket.io room other than the
    sender, which are the other connections whose entry of [socketToUserMap]
    names the room; the sender is not among them. *)
Theorem no_self_echo (st : State) (sid room text user : jsstr)
    (timestamp : option jsstr) (clock : jsstr) :
  reachable st →
  accepted sid room text user st = true →
  ∃ rcpts,
    (on_send_message sid room text user timestamp clock st).2
    = [mkEmit rcpts (receive_message (build_msg text user timestamp clock))]
    ∧ (sid ∉ rcpts)
    ∧ (∀ sid', sid' ∈ rcpts ↔ sid' ≠ sid ∧ sid' ∈ occupants room st)
    ∧ (∀ sid', sid' ∈ rcpts
               ↔ sid' ≠ sid
                 ∧ ∃ u, socketToUserMap st !! sid' = Some (mkUserInfo u room)).
Proof.
  intros Hreach Hacc. apply Inv_reachable in Hreach as HI.
  destruct (on_send_message_accepted sid room text user timestamp clock st Hacc)
    as (_ & _ & _ & Ha & Hout).
  exists (occupants room st ∖ {[sid]}).
  assert (Hrc : ∀ sid', sid' ∈ occupants room st ∖ {[sid]}
                        ↔ sid' ≠ sid ∧ sid' ∈ occupants room st).
  { intros sid'. rewrite elem_of_difference, elem_of_singleton. tauto. }
  split; [|split; [|split]].
  - rewrite Hout. unfold socket_to_emit, occupants. rewrite Ha. reflexivity.
  - intros Hin. apply Hrc in Hin as [Hne _]. congruence.
  - exact Hrc.
  - intros sid'. rewrite Hrc, (inv_adapter st HI sid' room). reflexivity.
Qed.

(** [alice] writes to [room_a]: [bob] receives the message, she does not. *)
Lemma no_self_echo_witness :
  ∃ rcpts,
    (on_send_message conn1 room_a (js "hi") alice None noon
       (run init [join_room conn1 room_a alice; join_room conn2 room_a bob])).2
    = [mkEmit rcpts (receive_message (mkMsg (js "hi") alice noon))]
    ∧ (conn1 ∉ rcpts) ∧ conn2 ∈ rcpts.
Proof.
  destruct (no_self_echo
              (run init [join_room conn1 room_a alice; join_room conn2 room_a bob])
              conn1 room_a (js "hi") alice None noon)
    as (rcpts & Hout & Hnot & Hocc & _).
  - eexists. reflexivity.
  - vm_compute. reflexivity.
  - exists rcpts. split; [exact Hout|]. split; [exact Hnot|].
    apply Hocc. split; [vm_compute; discriminate | by_compute].
Defined.

(** ** The message built *)

Lemma last_push_bounded msg h : last (push_bounded msg h) = Some msg.
Proof.
  rewrite push_bounded_slice. unfold slice_last.
  rewrite drop_app_le by (rewrite length_app; simpl; lia).
  apply last_snoc.
Qed.

(** C8, as the code has it.  A successful [send-message] stores, as the
    newest entry of the room's history, and broadcasts one message whose text
    and username are the trimmed inputs and whose timestamp is the client's
    when the client gave a non-empty one, and the string of the server's clock
    when the client gave none or an empty one. *)
Theorem message_fields (st : State) (sid room text user : jsstr)
    (timestamp : option jsstr) (clock : jsstr) :
  accepted sid room text user st = true →
  ∃ msg rcpts,
    (on_send_message sid room text user timestamp clock st).2
    = [mkEmit rcpts (receive_message msg)]
    ∧ last (snapshot room (on_send_message sid room text user timestamp clock st).1)
      = Some msg
    ∧ m_message msg = trim text
    ∧ m_username msg = trim user
    ∧ (∀ t, timestamp = Some t → t ≠ [] → m_timestamp msg = t)
    ∧ (timestamp = None ∨ timestamp = Some [] → m_timestamp msg = clock).
Proof.
  intros Hacc.
  destruct (on_send_message_accepted sid room text user timestamp clock st Hacc)
    as (_ & Hc & _ & _ & Hout).
  exists (build_msg text user timestamp clock). eexists.
  split; [exact Hout|]. split; [|split; [|split; [|split]]].
  - unfold snapshot at 1. rewrite Hc, lookup_insert_eq. simpl. apply last_push_bounded.
  - reflexivity.
  - reflexivity.
  - intros t -> Ht. simpl. destruct t; [congruence | reflexivity].
  - intros [-> | ->]; reflexivity.
Qed.

(** [alice] sends a padded text with her own timestamp. *)
Lemma message_fields_witness :
  ∃ msg rcpts,
    (on_send_message conn1 room_a (js "  hi ") alice (Some (js "09:30")) noon
       (run init [join_room conn1 room_a alice])).2
    = [mkEmit rcpts (receive_message msg)]
    ∧ m_message msg = js "hi" ∧ m_timestamp msg = js "09:30".
Proof.
  destruct (message_fields (run init [join_room conn1 room_a alice])
              conn1 room_a (js "  hi ") alice (Some (js "09:30")) noon)
    as (msg & rcpts & Hout & _ & Htext & _ & Hts & _).
  - vm_compute. reflexivity.
  - exists msg, rcpts. split; [exact Hout|]. split.
    + rewrite Htext. vm_compute. reflexivity.
    + apply Hts; [reflexivity | vm_compute; discriminate].
Defined.

(** C8 as stated fails for a client that provides the empty string as its
    timestamp: [||] takes the clock's string instead. *)
Lemma empty_timestamp_replaced :
  snapshot room_a
    (step (run init [join_room conn1 room_a alice])
       (send_message conn1 room_a (js "hi") alice (Some []) noon))
  = [mkMsg (js "hi") alice noon]
  ∧ noon ≠ [].
Proof. split; vm_compute; [reflexivity | discriminate]. Qed.

(** ** Rejoining the same room *)

(** C9.  When a connection whose entry names [u] and room [R], with [u] the
    only member of [R], performs a valid join of [R] again, the vacate step
    removes [R] from [rooms] and from [chatHistory]; after the join [R] has
    no history, whatever was stored for it before, and the [chat-history]
    sent to the connection is empty. *)
Theorem rejoin_same_room_clears_history (st : State) (sid R u user : jsstr) :
  socketToUserMap st !! sid = Some (mkUserInfo u R) →
  rooms st !! R = Some [u] →
  valid_join R user = true →
  (rooms (leave_previous sid (mkUserInfo u R) st).1 !! R = None
   ∧ chatHistory (leave_previous sid (mkUserInfo u R) st).1 !! R = None)
  ∧ chatHistory (on_join_room sid R user st).1 !! R = None
  ∧ snapshot R (on_join_room sid R user st).1 = []
  ∧ members R (on_join_room sid R user st).1 = [trim user]
  ∧ ∃ rcpts1 rcpts2,
      (on_join_room sid R user st).2
      = [mkEmit rcpts1 (update_users []);
         mkEmit {[sid]} (chat_history []);
         mkEmit rcpts2 (update_users [trim user])].
Proof.
  intros Hp Hs Hv.
  assert (Hdel : set_delete u [u] = []).
  { unfold set_delete. rewrite filter_cons.
    destruct (decide (u ≠ u)); [congruence | reflexivity]. }
  destruct (leave_previous_state sid (mkUserInfo u R) st) as (Hr1 & Hc1 & _).
  cbv zeta in Hr1, Hc1. cbn [username roomId] in Hr1, Hc1.
  assert (Hmid : rooms (leave_previous sid (mkUserInfo u R) st).1 !! R = None
                 ∧ chatHistory (leave_previous sid (mkUserInfo u R) st).1 !! R = None).
  { rewrite Hr1, Hc1. unfold vacate_rooms, vacate_history. rewrite Hs, Hdel.
    destruct (decide ([] = [])); [|congruence].
    split; apply lookup_delete_eq. }
  destruct (on_join_room_state sid R user st Hv) as (Hr & Hc & _).
  rewrite Hp in Hr, Hc. cbn [vacated_rooms vacated_history username roomId] in Hr, Hc.
  rewrite <- Hr1 in Hr. rewrite <- Hc1 in Hc.
  destruct Hmid as [Hmid_r Hmid_c]. rewrite Hmid_r in Hr. simpl in Hr.
  assert (Hhist : chatHistory (on_join_room sid R user st).1 !! R = None)
    by (rewrite Hc; exact Hmid_c).
  assert (Hsnap : snapshot R (on_join_room sid R user st).1 = [])
    by (unfold snapshot; rewrite Hhist; reflexivity).
  assert (Hmem : members R (on_join_room sid R user st).1 = [trim user])
    by (unfold members; rewrite Hr, lookup_insert_eq; reflexivity).
  split; [split; assumption|]. split; [exact Hhist|]. split; [exact Hsnap|].
  split; [exact Hmem|].
  pose proof (on_join_room_rejoin sid R user _ st Hv Hp) as Hout. cbv zeta in Hout.
  pose proof (f_equal fst Hout) as Hst'. cbn [fst] in Hst'.
  rewrite <- Hst' in Hout. rewrite Hout. cbn [snd roomId].
  unfold io_to_emit, socket_emit. rewrite Hsnap, Hmem.
  unfold members at 1. rewrite Hmid_r. simpl. eauto.
Qed.

(** [alice], alone in [room_a], has sent a message and joins [room_a] again:
    the message is gone. *)
Lemma rejoin_same_room_clears_history_witness :
  snapshot room_a
    (run init [join_room conn1 room_a alice;
               send_message conn1 room_a (js "hi") alice None noon]) ≠ []
  ∧ snapshot room_a
      (on_join_room conn1 room_a alice
         (run init [join_room conn1 room_a alice;
                    send_message conn1 room_a (js "hi") alice None noon])).1 = [].
Proof.
  split; [vm_compute; discriminate|].
  refine (proj1 (proj2 (proj2 (rejoin_same_room_clears_history
    (run init [join_room conn1 room_a alice;
               send_message conn1 room_a (js "hi") alice None noon])
    conn1 room_a alice alice _ _ _))));
    vm_compute; reflexivity.
Defined.

(** ** Disconnect *)

(** C10.  After the [disconnect] handler the connection has no entry in
    [socketToUserMap], and no other entry has changed.  When it had none
    before, and when its entry named a room that [rooms] does not hold,
    [rooms] and [chatHistory] are left as they were and nothing is emitted. *)
Theorem disconnect_removes_session (sid : jsstr) (st : State) :
  socketToUserMap (on_disconnect sid st).1 !! sid = None
  ∧ socketToUserMap (on_disconnect sid st).1 = delete sid (socketToUserMap st)
  ∧ (socketToUserMap st !! sid = None →
     rooms (on_disconnect sid st).1 = rooms st
     ∧ chatHistory (on_disconnect sid st).1 = chatHistory st
     ∧ (on_disconnect sid st).2 = [])
  ∧ (∀ userInfo,
       socketToUserMap st !! sid = Some userInfo →
       rooms st !! roomId userInfo = None →
       rooms (on_disconnect sid st).1 = rooms st
       ∧ chatHistory (on_disconnect sid st).1 = chatHistory st
       ∧ (on_disconnect sid st).2 = []).
Proof.
  destruct (on_disconnect_state sid st) as (_ & _ & Hm & _).
  split; [rewrite Hm; apply lookup_delete_eq|]. split; [exact Hm|]. split.
  - intros Hnone. unfold on_disconnect. simpl. rewrite Hnone. repeat split.
  - intros userInfo Hsome Hroom. unfold on_disconnect. simpl.
    rewrite Hsome, Hroom. repeat split.
Qed.

(** After [shared_name_run] the entry of [conn2] names [room_a], which is
    gone; its disconnect only removes the entry. *)
Lemma disconnect_removes_session_witness :
  socketToUserMap (on_disconnect conn2 (run init shared_name_run)).1 !! conn2 = None
  ∧ (on_disconnect conn2 (run init shared_name_run)).2 = [].
Proof.
  destruct (disconnect_removes_session conn2 (run init shared_name_run))
    as (Hgone & _ & _ & Habsent).
  split; [exact Hgone|].
  apply (Habsent (mkUserInfo alice room_a)); vm_compute; reflexivity.
Defined.

(** * Further properties of the code *)

(** ** The validator *)

Lemma hex_run_split n s r :
  hex_run n s = Some r ↔
  ∃ p, s = p ++ r ∧ length p = n ∧ forallb is_hex p = true.
Proof.
  revert s. induction n as [|n IH]; intros s; simpl.
  - split.
    + intros [= ->]. exists []. repeat split.
    + intros (p & -> & Hlen & _). destruct p; [reflexivity | discriminate].
  - split.
    + destruct s as [|c s]; [discriminate|].
      destruct (is_hex c) eqn:Hc; [|discriminate].
      intros Hrun. apply IH in Hrun as (p & -> & Hlen & Hp).
      exists (c :: p). simpl. rewrite Hc, Hp, Hlen. repeat split.
    + intros (p & -> & Hlen & Hp). destruct p as [|c p]; [discriminate|].
      simpl in *. apply andb_true_iff in Hp as [Hc Hp]. rewrite Hc.
      apply IH. exists p. repeat split; [lia | assumption].
Qed.

Lemma hyphen_head (t r : jsstr) :
  match t with 45 :: s' => Some s' | _ => None end = Some r → t = 45 :: r.
Proof.
  intros H.
  repeat (match type of H with
          | context [match ?x with _ => _ end] => destruct x
          end; try discriminate).
  injection H as ->. reflexivity.
Qed.

Lemma hex_group_split n s r :
  hex_group n s = Some r ↔
  ∃ p, s = p ++ 45 :: r ∧ length p = n ∧ forallb is_hex p = true.
Proof.
  unfold hex_group. split.
  - destruct (hex_run n s) as [t|] eqn:Hrun; [|discriminate].
    apply hex_run_split in Hrun as (p & -> & Hlen & Hp).
    intros Ht. apply hyphen_head in Ht as ->.
    exists p. repeat split; assumption.
  - intros (p & -> & Hlen & Hp).
    assert (Hrun : hex_run n (p ++ 45 :: r) = Some (45 :: r))
      by (apply hex_run_split; exists p; repeat split; assumption).
    rewrite Hrun. reflexivity.
Qed.

(** X1.  [isValidUUID] accepts exactly the strings made of runs of 8, 4, 4,
    4 and 12 hexadecimal digits (either case) joined by hyphens; such a
    string has 36 code units. *)
Theorem isValidUUID_shape (s : jsstr) :
  (isValidUUID s = true ↔ uuid_shape s)
  ∧ (isValidUUID s = true → length s = 36%nat).
Proof.
  assert (Hiff : isValidUUID s = true ↔ uuid_shape s).
  { unfold isValidUUID, uuid_shape. split.
    - destruct (hex_group 8 s) as [s1|] eqn:H1; [|discriminate].
      destruct (hex_group 4 s1) as [s2|] eqn:H2; [|discriminate].
      destruct (hex_group 4 s2) as [s3|] eqn:H3; [|discriminate].
      destruct (hex_group 4 s3) as [s4|] eqn:H4; [|discriminate].
      destruct (hex_run 12 s4) as [s5|] eqn:H5; [|discriminate].
      destruct s5; [|discriminate]. intros _.
      apply hex_group_split in H1 as (g1 & -> & L1 & F1).
      apply hex_group_split in H2 as (g2 & -> & L2 & F2).
      apply hex_group_split in H3 as (g3 & -> & L3 & F3).
      apply hex_group_split in H4 as (g4 & -> & L4 & F4).
      apply hex_run_split in H5 as (g5 & -> & L5 & F5).
      exists g1, g2, g3, g4, g5. rewrite app_nil_r.
      split; [reflexivity|]. split; [repeat split; assumption|].
      rewrite !forallb_app, F1, F2, F3, F4, F5. reflexivity.
    - intros (g1 & g2 & g3 & g4 & g5 & -> & (L1 & L2 & L3 & L4 & L5) & F).
      rewrite !forallb_app, !andb_true_iff in F.
      destruct F as (F1 & F2 & F3 & F4 & F5).
      rewrite (proj2 (hex_group_split 8 _ _)) by (exists g1; repeat split; assumption).
      rewrite (proj2 (hex_group_split 4 _ _)) by (exists g2; repeat split; assumption).
      rewrite (proj2 (hex_group_split 4 _ _)) by (exists g3; repeat split; assumption).
      rewrite (proj2 (hex_group_split 4 _ _)) by (exists g4; repeat split; assumption).
      rewrite (proj2 (hex_run_split 12 g5 [])); [reflexivity|].
      exists g5. rewrite app_nil_r. repeat split; assumption. }
  split; [exact Hiff|].
  intros Hv. apply Hiff in Hv
    as (g1 & g2 & g3 & g4 & g5 & -> & (L1 & L2 & L3 & L4 & L5) & _).
  repeat (rewrite length_app || rewrite length_cons). lia.
Qed.

Lemma isValidUUID_shape_witness : length room_b = 36%nat.
Proof. apply (proj2 (isValidUUID_shape room_b)). vm_compute. reflexivity. Defined.

(** ** [trim] and the blank test *)

Lemma forallb_rev {A} (f : A → bool) (l : list A) : forallb f (rev l) = forallb f l.
Proof.
  induction l as [|x l IH]; [reflexivity|]. simpl.
  rewrite forallb_app, IH. simpl. rewrite andb_true_r. apply andb_comm.
Qed.

Lemma last_rev {A} (l : list A) : last (rev l) = head l.
Proof. destruct l as [|x l]; [reflexivity|]. simpl. apply last_snoc. Qed.

Lemma head_rev {A} (l : list A) : head (rev l) = last l.
Proof. rewrite <- (rev_involutive l) at 2. symmetry. apply last_rev. Qed.

Lemma trimStart_split s :
  ∃ pre, s = pre ++ trimStart s ∧ forallb is_space pre = true.
Proof.
  induction s as [|c s (pre & Hs & Hpre)]; [exists []; split; reflexivity|].
  simpl. destruct (is_space c) eqn:Hc.
  - exists (c :: pre). simpl. rewrite Hc, Hpre, <- Hs. split; reflexivity.
  - exists []. split; reflexivity.
Qed.

Lemma trimStart_head s c : head (trimStart s) = Some c → is_space c = false.
Proof.
  induction s as [|d s IH]; simpl; [discriminate|].
  destruct (is_space d) eqn:Hd; [exact IH|]. simpl. intros [= <-]. exact Hd.
Qed.

Lemma trimStart_id s :
  (∀ c, head s = Some c → is_space c = false) → trimStart s = s.
Proof.
  destruct s as [|c s]; [reflexivity|]. simpl. intros H.
  rewrite (H c eq_refl). reflexivity.
Qed.

Lemma trimStart_nil s : forallb is_space s = true → trimStart s = [].
Proof.
  induction s as [|c s IH]; [reflexivity|]. simpl.
  intros H. apply andb_true_iff in H as [Hc Hs]. rewrite Hc. exact (IH Hs).
Qed.

Lemma trimEnd_split s :
  ∃ post, s = trimEnd s ++ post ∧ forallb is_space post = true.
Proof.
  unfold trimEnd. destruct (trimStart_split (rev s)) as (pre & Hs & Hpre).
  exists (rev pre). split.
  - rewrite <- rev_app_distr, <- Hs, rev_involutive. reflexivity.
  - rewrite forallb_rev. exact Hpre.
Qed.

Lemma trimEnd_last s c : last (trimEnd s) = Some c → is_space c = false.
Proof. unfold trimEnd. rewrite last_rev. apply trimStart_head. Qed.

Lemma trimEnd_id s :
  (∀ c, last s = Some c → is_space c = false) → trimEnd s = s.
Proof.
  intros H. unfold trimEnd. rewrite trimStart_id; [apply rev_involutive|].
  intros c. rewrite head_rev. apply H.
Qed.

Lemma trim_head s c : head (trim s) = Some c → is_space c = false.
Proof.
  unfold trim. destruct (trimEnd_split (trimStart s)) as (post & Hs & _).
  intros Hc. apply (trimStart_head s). rewrite Hs.
  destruct (trimEnd (trimStart s)); [discriminate | exact Hc].
Qed.

Lemma trim_last s c : last (trim s) = Some c → is_space c = false.
Proof. apply trimEnd_last. Qed.

Lemma trim_idempotent s : trim (trim s) = trim s.
Proof.
  unfold trim at 1. rewrite (trimStart_id (trim s)) by apply trim_head.
  apply trimEnd_id, trim_last.
Qed.

Lemma trim_nil_iff s : trim s = [] ↔ forallb is_space s = true.
Proof.
  split.
  - intros Ht. destruct (trimStart_split s) as (pre & Hs & Hpre).
    destruct (trimEnd_split (trimStart s)) as (post & Hs' & Hpost).
    unfold trim in Ht. rewrite Ht in Hs'. simpl in Hs'.
    rewrite Hs, Hs', forallb_app, Hpre, Hpost. reflexivity.
  - intros Hall. unfold trim. rewrite (trimStart_nil s Hall). reflexivity.
Qed.

(** X2.  [trim] cuts a string down to a middle part between two runs of
    whitespace: the part kept neither begins nor ends with a whitespace code
    unit, and trimming it again changes nothing. *)
Theorem trim_spec (s : jsstr) :
  (∃ pre post, s = pre ++ trim s ++ post
               ∧ forallb is_space pre = true ∧ forallb is_space post = true)
  ∧ (∀ c, head (trim s) = Some c → is_space c = false)
  ∧ (∀ c, last (trim s) = Some c → is_space c = false)
  ∧ trim (trim s) = trim s.
Proof.
  split; [|split; [apply trim_head | split; [apply trim_last | apply trim_idempotent]]].
  destruct (trimStart_split s) as (pre & Hs & Hpre).
  destruct (trimEnd_split (trimStart s)) as (post & Hs' & Hpost).
  exists pre, post. split; [|split; assumption].
  unfold trim. rewrite <- Hs'. exact Hs.
Qed.

Lemma blank_forallb s : blank s = forallb is_space s.
Proof.
  unfold blank. destruct (forallb is_space s) eqn:Hall.
  - apply trim_nil_iff in Hall. rewrite Hall. apply orb_true_r.
  - destruct s as [|c s]; [discriminate|]. simpl.
    destruct (trim (c :: s)) as [|d t] eqn:Ht.
    + apply trim_nil_iff in Ht. congruence.
    + reflexivity.
Qed.

Lemma not_blank_clean s : blank s = false → clean (trim s).
Proof.
  rewrite blank_forallb. intros Hall. split; [|apply trim_idempotent].
  intros Ht. apply trim_nil_iff in Ht. congruence.
Qed.

(** X3.  The test [!s || s.trim().length === 0] that both handlers apply to
    the username, and [send-message] to the text, holds exactly of the strings
    that consist of whitespace only, the empty string included; a string that
    passes it has a trimmed form that is not empty. *)
Theorem blank_iff_whitespace (s : jsstr) :
  blank s = forallb is_space s ∧ (blank s = false ↔ trim s ≠ []).
Proof.
  split; [apply blank_forallb|]. rewrite blank_forallb. split.
  - intros Hall Ht. apply trim_nil_iff in Ht. congruence.
  - intros Ht. destruct (forallb is_space s) eqn:Hall; [|reflexivity].
    exfalso. apply Ht, trim_nil_iff, Hall.
Qed.

(** ** Everything stored has passed the validation *)

Lemma vacated_history_sub prev st room h :
  vacated_history prev st !! room = Some h → chatHistory st !! room = Some h.
Proof.
  destruct prev as [[pu pr]|]; simpl; [|tauto]. unfold vacate_history.
  destruct (rooms st !! pr) as [s|]; [|tauto].
  destruct (decide (set_delete pu s = [])); [|tauto].
  intros Hl. apply lookup_delete_Some in Hl as [_ Hl]. exact Hl.
Qed.

Lemma elem_of_slice_last {A} n (l : list A) x : x ∈ slice_last n l → x ∈ l.
Proof.
  unfold slice_last. intros Hin.
  rewrite <- (take_drop (length l - n) l). apply elem_of_app. right. exact Hin.
Qed.

Lemma push_bounded_props msg h :
  push_bounded msg h ≠ []
  ∧ (length (push_bounded msg h) ≤ 100)%nat
  ∧ ∀ x, x ∈ push_bounded msg h → x ∈ h ∨ x = msg.
Proof.
  split; [|split].
  - intros Hnil. pose proof (last_push_bounded msg h) as Hlast.
    rewrite Hnil in Hlast. discriminate.
  - rewrite push_bounded_slice. unfold slice_last. rewrite length_drop. lia.
  - intros x. rewrite push_bounded_slice. intros Hin.
    apply elem_of_slice_last, elem_of_app in Hin as [Hin|Hin]; [auto|].
    apply list_elem_of_singleton in Hin. auto.
Qed.

Lemma accepted_checks sid room text user st :
  accepted sid room text user st = true →
  isValidUUID room = true ∧ blank text = false ∧ blank user = false.
Proof.
  unfold accepted. rewrite !andb_true_iff, !negb_true_iff. tauto.
Qed.

Lemma WellFormed_init : WellFormed init.
Proof.
  split; simpl; intros k v Hk; rewrite lookup_empty in Hk; discriminate.
Qed.

Lemma WellFormed_step st ev : WellFormed st → WellFormed (step st ev).
Proof.
  intros [Hs Hh]. destruct ev as [sid room user|sid room text user ts clock|sid];
    unfold step; simpl.
  - destruct (valid_join room user) eqn:Hv;
      [|rewrite on_join_room_invalid by assumption; split; assumption].
    destruct (on_join_room_state sid room user st Hv) as (_ & Hc & Hm).
    apply andb_true_iff in Hv as [Hroom Huser]. apply negb_true_iff in Huser.
    split.
    + intros sid' ui. rewrite Hm. destruct (decide (sid' = sid)) as [->|Hne].
      * rewrite lookup_insert_eq. intros [= <-]. simpl.
        split; [exact Hroom | apply not_blank_clean, Huser].
      * rewrite lookup_insert_ne by congruence. apply Hs.
    + intros r h. rewrite Hc. intros Hl. apply vacated_history_sub in Hl.
      exact (Hh r h Hl).
  - destruct (accepted sid room text user st) eqn:Hacc;
      [|rewrite on_send_message_rejected by assumption; split; assumption].
    destruct (on_send_message_accepted sid room text user ts clock st Hacc)
      as (_ & Hc & Hm & _).
    destruct (accepted_checks _ _ _ _ _ Hacc) as (Hroom & Htext & Huser).
    split.
    + intros sid' ui. rewrite Hm. apply Hs.
    + intros r h. rewrite Hc. destruct (decide (r = room)) as [->|Hne].
      * rewrite lookup_insert_eq. intros [= <-].
        destruct (push_bounded_props (build_msg text user ts clock) (snapshot room st))
          as (Hne & Hlen & Hin).
        split; [exact Hroom|]. split; [exact Hne|]. split; [exact Hlen|].
        intros msg Hmsg. apply Hin in Hmsg as [Hold| ->].
        -- unfold snapshot in Hold.
           destruct (chatHistory st !! room) as [h0|] eqn:Hh0; [|inversion Hold].
           exact (proj2 (proj2 (proj2 (Hh room h0 Hh0))) msg Hold).
        -- simpl. split; apply not_blank_clean; assumption.
      * rewrite lookup_insert_ne by congruence. apply Hh.
  - destruct (on_disconnect_state sid st) as (_ & Hc & Hm & _). split.
    + intros sid' ui. rewrite Hm. intros Hl.
      apply lookup_delete_Some in Hl as [_ Hl]. exact (Hs sid' ui Hl).
    + intros r h. rewrite Hc. intros Hl.
      apply (vacated_history_sub (socketToUserMap st !! sid)) in Hl.
      exact (Hh r h Hl).
Qed.

Lemma WellFormed_reachable st : reachable st → WellFormed st.
Proof.
  intros [evs ->]. unfold run. generalize init, WellFormed_init.
  induction evs as [|ev evs IH]; intros st0 H0; [exact H0|].
  simpl. apply IH, WellFormed_step, H0.
Qed.

(** X4.  In every reachable state, every entry of [socketToUserMap] holds a
    room-id of the UUID shape and a username that is not empty and has no
    whitespace at either end; the same holds of every key of [rooms] and of
    every username in a member set. *)
Theorem stored_names_validated (st : State) :
  reachable st →
  (∀ sid userInfo,
     socketToUserMap st !! sid = Some userInfo →
     isValidUUID (roomId userInfo) = true ∧ clean (username userInfo))
  ∧ (∀ room s,
       rooms st !! room = Some s →
       isValidUUID room = true ∧ ∀ user, user ∈ s → clean user).
Proof.
  intros Hreach. pose proof (WellFormed_reachable st Hreach) as [Hs _].
  pose proof (Inv_reachable st Hreach) as HI. split; [exact Hs|].
  intros room s Hroom.
  assert (Hmem : ∀ user, user ∈ s →
                 isValidUUID room = true ∧ clean user).
  { intros user Hin.
    destruct (inv_named st HI room user) as [sid Hsid].
    - unfold member, members. rewrite Hroom. exact Hin.
    - exact (Hs sid _ Hsid). }
  split; [|intros user Hin; apply (Hmem user Hin)].
  pose proof (inv_nonempty st HI room s Hroom) as Hne.
  destruct s as [|u s]; [congruence|]. apply (Hmem u). left.
Qed.

(** [" alice "] joins and is stored as ["alice"]. *)
Lemma stored_names_validated_witness :
  clean alice
  ∧ socketToUserMap (run init [join_room conn1 room_a (js " alice ")]) !! conn1
    = Some (mkUserInfo alice room_a).
Proof.
  split; [|vm_compute; reflexivity].
  refine (proj2 (proj1 (stored_names_validated
            (run init [join_room conn1 room_a (js " alice ")]) _)
            conn1 (mkUserInfo alice room_a) _)).
  - eexists. reflexivity.
  - vm_compute. reflexivity.
Defined.

(** X5.  In every reachable state, every history kept in [chatHistory] is
    keyed by a room-id of the UUID shape, holds at least one and at most 100
    messages, and every message in it has a text and a username that are not
    empty and have no whitespace at either end. *)
Theorem stored_history_validated (st : State) (room : jsstr) (h : list Msg) :
  reachable st →
  chatHistory st !! room = Some h →
  isValidUUID room = true ∧ h ≠ [] ∧ (length h ≤ 100)%nat
  ∧ ∀ msg, msg ∈ h → clean (m_message msg) ∧ clean (m_username msg).
Proof.
  intros Hreach. apply (wf_history st (WellFormed_reachable st Hreach)).
Qed.

(** Two sends of [alice] are stored as they passed the checks. *)
Lemma stored_history_validated_witness :
  isValidUUID room_a = true
  ∧ [mkMsg (js "0") alice noon; mkMsg (js "1") alice noon] ≠ []
  ∧ (length [mkMsg (js "0") alice noon; mkMsg (js "1") alice noon] ≤ 100)%nat
  ∧ ∀ msg, msg ∈ [mkMsg (js "0") alice noon; mkMsg (js "1") alice noon] →
           clean (m_message msg) ∧ clean (m_username msg).
Proof.
  apply (stored_history_validated
           (run init (join_room conn1 room_a alice :: numbered_sends 2))).
  - eexists. reflexivity.
  - vm_compute. reflexivity.
Defined.

(** ** The emits of the handlers *)

Lemma on_join_room_first sid room user st :
  valid_join room user = true →
  socketToUserMap st !! sid = None →
  let st' := (join_new sid room (trim user) st).1 in
  on_join_room sid room user st
  = (st', [socket_emit sid (chat_history (snapshot room st'));
           io_to_emit room st' (update_users (members room st'))]).
Proof.
  intros Hv Hp. cbv zeta. rewrite (on_join_room_valid _ _ _ _ Hv), Hp.
  rewrite (surjective_pairing (join_new sid room (trim user) st)).
  rewrite join_new_out. reflexivity.
Qed.

Lemma difference_empty_gset (sid : jsstr) : (∅ : gset jsstr) ∖ {[sid]} = ∅.
Proof.
  apply set_eq. intros x. rewrite elem_of_difference. split; [tauto|].
  intros Hx. apply not_elem_of_empty in Hx. contradiction.
Qed.

Lemma occupants_leaveAll sid room st :
  occupants room (socket_leaveAll sid st) = occupants room st ∖ {[sid]}.
Proof.
  unfold occupants. simpl. rewrite lookup_fmap.
  destruct (adapter st !! room); simpl; [reflexivity|].
  symmetry. apply difference_empty_gset.
Qed.

Lemma on_disconnect_out sid st :
  (on_disconnect sid st).2
  = match socketToUserMap st !! sid with
    | Some userInfo =>
        match rooms st !! roomId userInfo with
        | Some s => [mkEmit (occupants (roomId userInfo) st ∖ {[sid]})
                       (update_users (set_delete (username userInfo) s))]
        | None => []
        end
    | None => []
    end.
Proof.
  unfold on_disconnect. simpl.
  destruct (socketToUserMap st !! sid) as [ui|]; [|reflexivity].
  destruct (rooms st !! roomId ui) as [s|] eqn:Hs; [|reflexivity].
  simpl. unfold io_to_emit. f_equal. f_equal.
  - apply (occupants_leaveAll sid (roomId ui) st).
  - unfold members. simpl. rewrite lookup_alter_eq, Hs. reflexivity.
Qed.

(** X6.  Whatever the event and the state, a [room-error] is emitted only
    by a join or a send that fails a check of its handler, never by a valid
    join, an accepted send or a disconnect; it goes to the connection the
    event came from and to no other, it is the only emit of that handler run,
    and the run leaves every table as it was. *)
Theorem errors_are_local (ev : Event) (st : State) (e : Emit) (reason : jsstr) :
  e ∈ (handle ev st).2 →
  payload e = room_error reason →
  rejected ev st = true
  ∧ recipients e = {[origin ev]} ∧ (handle ev st).2 = [e] ∧ (handle ev st).1 = st.
Proof.
  destruct ev as [sid room user|sid room text user ts clock|sid]; simpl.
  - destruct (valid_join room user) eqn:Hv.
    + intros Hin Hpay. exfalso.
      destruct (socketToUserMap st !! sid) as [p|] eqn:Hp.
      * rewrite (on_join_room_rejoin sid room user p st Hv Hp) in Hin.
        cbn [snd] in Hin. rewrite !elem_of_cons in Hin.
        destruct Hin as [->|[->|[->|Hin]]]; try discriminate. inversion Hin.
      * rewrite (on_join_room_first sid room user st Hv Hp) in Hin.
        cbn [snd] in Hin. rewrite !elem_of_cons in Hin.
        destruct Hin as [->|[->|Hin]]; try discriminate. inversion Hin.
    + intros Hin0 Hpay0. split; [reflexivity|]. revert Hin0 Hpay0.
      unfold valid_join in Hv. unfold on_join_room.
      destruct (isValidUUID room); simpl in *.
      * destruct (blank user); [|discriminate]. simpl.
        intros Hin _. apply list_elem_of_singleton in Hin as ->. repeat split.
      * intros Hin _. apply list_elem_of_singleton in Hin as ->. repeat split.
  - destruct (accepted sid room text user st) eqn:Hacc.
    + destruct (on_send_message_accepted sid room text user ts clock st Hacc)
        as (_ & _ & _ & _ & Hout).
      rewrite Hout. intros Hin Hpay. exfalso.
      apply list_elem_of_singleton in Hin as ->. discriminate.
    + intros Hin0 Hpay0. split; [reflexivity|]. revert Hin0 Hpay0.
      unfold accepted in Hacc. unfold on_send_message.
      destruct (isValidUUID room); simpl in *.
      * destruct (blank text); simpl in *; [intros Hin; inversion Hin|].
        destruct (blank user); simpl in *.
        -- intros Hin _. apply list_elem_of_singleton in Hin as ->. repeat split.
        -- rewrite Hacc. simpl.
           intros Hin _. apply list_elem_of_singleton in Hin as ->. repeat split.
      * intros Hin _. apply list_elem_of_singleton in Hin as ->. repeat split.
  - rewrite on_disconnect_out. intros Hin Hpay. exfalso.
    destruct (socketToUserMap st !! sid) as [ui|]; [|inversion Hin].
    destruct (rooms st !! roomId ui) as [s|]; [|inversion Hin].
    apply list_elem_of_singleton in Hin as ->. discriminate.
Qed.

(** [bob] tries to join a room that is not a UUID while [alice] is in
    [room_a]: only he hears of it. *)
Lemma errors_are_local_witness :
  rejected (join_room conn2 (js "lobby") bob)
    (run init [join_room conn1 room_a alice]) = true
  ∧ recipients (mkEmit {[conn2]} (room_error (js "Invalid room ID format")))
    = {[conn2]}
  ∧ (handle (join_room conn2 (js "lobby") bob)
       (run init [join_room conn1 room_a alice])).2
    = [mkEmit {[conn2]} (room_error (js "Invalid room ID format"))]
  ∧ (handle (join_room conn2 (js "lobby") bob)
       (run init [join_room conn1 room_a alice])).1
    = run init [join_room conn1 room_a alice].
Proof.
  apply (errors_are_local (join_room conn2 (js "lobby") bob)
           (run init [join_room conn1 room_a alice])
           (mkEmit {[conn2]} (room_error (js "Invalid room ID format")))
           (js "Invalid room ID format")).
  - vm_compute. left.
  - reflexivity.
Defined.

(** ** Connections and socket.io rooms *)

(** X7.  In every reachable state a connection is in the socket.io room of
    a room-id of the UUID shape exactly when its entry of [socketToUserMap]
    names that room-id; so it is in one such room at most, and a connection
    without an entry is in none.  (The room socket.io keeps under the id of
    each socket is not of that shape.) *)
Theorem one_room_per_connection (st : State) :
  reachable st →
  (∀ sid room,
     isValidUUID room = true →
     (sid ∈ occupants room st
      ↔ ∃ user, socketToUserMap st !! sid = Some (mkUserInfo user room)))
  ∧ (∀ sid room1 room2,
       isValidUUID room1 = true → isValidUUID room2 = true →
       sid ∈ occupants room1 st → sid ∈ occupants room2 st → room1 = room2)
  ∧ (∀ sid room,
       isValidUUID room = true →
       socketToUserMap st !! sid = None → sid ∉ occupants room st).
Proof.
  intros Hreach. pose proof (Inv_reachable st Hreach) as HI.
  split; [intros sid room _; apply (inv_adapter st HI)|]. split.
  - intros sid room1 room2 _ _ H1 H2.
    apply (inv_adapter st HI) in H1 as [u1 H1].
    apply (inv_adapter st HI) in H2 as [u2 H2]. congruence.
  - intros sid room _ Hnone Hin.
    apply (inv_adapter st HI) in Hin as [u Hu]. congruence.
Qed.

(** After moving from [room_a] to [room_b], [conn1] is in [room_b] only. *)
Lemma one_room_per_connection_witness :
  conn1 ∈ occupants room_b
            (run init [join_room conn1 room_a alice; join_room conn1 room_b alice])
  ∧ conn1 ∉ occupants room_a
              (run init [join_room conn1 room_a alice; join_room conn1 room_b alice]).
Proof.
  destruct (one_room_per_connection
              (run init [join_room conn1 room_a alice; join_room conn1 room_b alice]))
    as (Hiff & Hone & _); [eexists; reflexivity|].
  assert (Hb : conn1 ∈ occupants room_b
                 (run init [join_room conn1 room_a alice; join_room conn1 room_b alice])).
  { apply Hiff; [vm_compute; reflexivity|]. exists alice. vm_compute. reflexivity. }
  split; [exact Hb|]. intros Ha.
  pose proof (Hone conn1 room_a room_b eq_refl eq_refl Ha Hb) as Heq.
  vm_compute in Heq. discriminate.
Defined.

(** X8.  A valid join of a connection that has no entry in [socketToUserMap]
    leaves [chatHistory] as it was and emits two events: the history of the
    room as it was, to the joiner alone, and the member list to the joiner and
    to everyone already in the socket.io room.  The list is the old one with
    the trimmed username at its end, or the old one unchanged when that
    username was a member already. *)
Theorem first_join_emits (st : State) (sid room user : jsstr) :
  valid_join room user = true →
  socketToUserMap st !! sid = None →
  chatHistory (on_join_room sid room user st).1 = chatHistory st
  ∧ (on_join_room sid room user st).2
    = [mkEmit {[sid]} (chat_history (snapshot room st));
       mkEmit ({[sid]} ∪ occupants room st)
         (update_users (set_add (trim user) (members room st)))]
  ∧ (trim user ∈ members room st →
     set_add (trim user) (members room st) = members room st)
  ∧ (trim user ∉ members room st →
     set_add (trim user) (members room st) = members room st ++ [trim user]).
Proof.
  intros Hv Hp. rewrite (on_join_room_first sid room user st Hv Hp). cbn [fst snd].
  destruct (join_new_state sid room (trim user) st) as (Hr & Hc & _ & Ha).
  cbv zeta in Hr, Hc, Ha. split; [exact Hc|]. split.
  - unfold socket_emit, io_to_emit, snapshot, occupants, members.
    rewrite Hr, Hc, Ha, !lookup_insert_eq. reflexivity.
  - unfold set_add. split; intros Hin;
      destruct (decide (trim user ∈ members room st)); (reflexivity || contradiction).
Qed.

(** [bob] joins [room_a], where [alice] has written: he gets her message,
    both get the list. *)
Lemma first_join_emits_witness :
  (on_join_room conn2 room_a bob
     (run init [join_room conn1 room_a alice;
                send_message conn1 room_a (js "hi") alice None noon])).2
  = [mkEmit {[conn2]} (chat_history [mkMsg (js "hi") alice noon]);
     mkEmit ({[conn2]} ∪ {[conn1]}) (update_users [alice; bob])].
Proof.
  refine (proj1 (proj2 (first_join_emits
    (run init [join_room conn1 room_a alice;
               send_message conn1 room_a (js "hi") alice None noon])
    conn2 room_a bob _ _))); vm_compute; reflexivity.
Defined.

(** X9.  When the entry of the closing connection names a room that [rooms]
    holds, [disconnect] emits one event, the member list without the entry's
    username, to the connections that remain in the socket.io room (also when
    the list is empty); the room keeps the remaining members, or is removed
    together with its history when none remains. *)
Theorem disconnect_broadcast (st : State) (sid user room : jsstr) (s : list jsstr) :
  socketToUserMap st !! sid = Some (mkUserInfo user room) →
  rooms st !! room = Some s →
  (on_disconnect sid st).2
  = [mkEmit (occupants room st ∖ {[sid]}) (update_users (set_delete user s))]
  ∧ (set_delete user s ≠ [] →
     rooms (on_disconnect sid st).1 !! room = Some (set_delete user s)
     ∧ chatHistory (on_disconnect sid st).1 = chatHistory st)
  ∧ (set_delete user s = [] →
     rooms (on_disconnect sid st).1 !! room = None
     ∧ chatHistory (on_disconnect sid st).1 = delete room (chatHistory st)).
Proof.
  intros Hp Hs. split.
  - rewrite on_disconnect_out, Hp. simpl. rewrite Hs. reflexivity.
  - destruct (on_disconnect_state sid st) as (Hr & Hc & _).
    rewrite Hp in Hr, Hc. simpl in Hr, Hc. rewrite Hr, Hc, lookup_vacate_rooms.
    unfold vacate_history. rewrite Hs.
    destruct (decide (room = room)); [|congruence].
    destruct (decide (set_delete user s = [])); split; intros Hd;
      try contradiction; split; reflexivity.
Qed.

(** [alice] leaves [room_a]; [bob] is told that he is alone. *)
Lemma disconnect_broadcast_witness :
  (on_disconnect conn1
     (run init [join_room conn1 room_a alice; join_room conn2 room_a bob])).2
  = [mkEmit {[conn2]} (update_users [bob])].
Proof.
  pose proof (disconnect_broadcast
    (run init [join_room conn1 room_a alice; join_room conn2 room_a bob])
    conn1 alice room_a [alice; bob]) as H.
  destruct H as (Hout & _); [vm_compute; reflexivity | vm_compute; reflexivity|].
  rewrite Hout. vm_compute. reflexivity.
Defined.

(** ** How the handlers compose *)

Lemma State_eq (a b : State) :
  rooms a = rooms b → chatHistory a = chatHistory b →
  socketToUserMap a = socketToUserMap b → adapter a = adapter b → a = b.
Proof. destruct a, b. simpl. intros -> -> -> ->. reflexivity. Qed.

Lemma set_delete_added user s : user ∉ s → set_delete user (set_add user s) = s.
Proof.
  intros Hnin. unfold set_add. destruct (decide (user ∈ s)); [contradiction|].
  unfold set_delete. rewrite filter_app.
  fold (set_delete user s). rewrite (set_delete_absent user s Hnin).
  rewrite filter_cons. destruct (decide (user ≠ user)); [congruence|].
  rewrite filter_nil. apply app_nil_r.
Qed.

(** X10.  In a reachable state, a valid join of a connection without an
    entry, under a username that is not yet a member of the room, followed by
    the disconnect of that connection, gives back [rooms], [socketToUserMap]
    and the occupants of every socket.io room whose id has the UUID shape as
    they were.  [chatHistory] is as it was when the room existed before; when
    the join created the room, the disconnect removes what history was left
    under its id. *)
Theorem join_then_disconnect (st : State) (sid room user : jsstr) :
  reachable st →
  valid_join room user = true →
  socketToUserMap st !! sid = None →
  trim user ∉ members room st →
  rooms (on_disconnect sid (on_join_room sid room user st).1).1 = rooms st
  ∧ socketToUserMap (on_disconnect sid (on_join_room sid room user st).1).1
    = socketToUserMap st
  ∧ (∀ r, isValidUUID r = true →
          occupants r (on_disconnect sid (on_join_room sid room user st).1).1
          = occupants r st)
  ∧ chatHistory (on_disconnect sid (on_join_room sid room user st).1).1
    = match rooms st !! room with
      | Some _ => chatHistory st
      | None => delete room (chatHistory st)
      end.
Proof.
  intros Hreach Hv Hp Hnin. pose proof (Inv_reachable st Hreach) as HI.
  destruct (on_join_room_state sid room user st Hv) as (Hr1 & Hc1 & Hm1).
  pose proof (on_join_room_adapter sid room user st Hv) as Ha1.
  cbv zeta in Ha1. rewrite Hp in Hr1, Hc1, Ha1.
  cbn [vacated_rooms vacated_history vacated_adapter] in Hr1, Hc1, Ha1.
  fold (members room st) in Hr1. fold (occupants room st) in Ha1.
  set (st1 := (on_join_room sid room user st).1) in *.
  destruct (on_disconnect_state sid st1) as (Hr2 & Hc2 & Hm2 & Ha2).
  assert (Hp1 : socketToUserMap st1 !! sid = Some (mkUserInfo (trim user) room))
    by (rewrite Hm1; apply lookup_insert_eq).
  rewrite Hp1 in Hr2, Hc2. cbn [username roomId] in Hr2, Hc2.
  assert (Hl1 : rooms st1 !! room = Some (set_add (trim user) (members room st)))
    by (rewrite Hr1; apply lookup_insert_eq).
  unfold vacate_rooms in Hr2. unfold vacate_history in Hc2.
  rewrite Hl1, (set_delete_added _ _ Hnin) in Hr2, Hc2.
  assert (Hsid : ∀ r, sid ∉ occupants r st).
  { intros r Hin. apply (inv_adapter st HI) in Hin as [u Hu]. congruence. }
  split; [|split; [|split]].
  - rewrite Hr2. unfold members in *.
    destruct (rooms st !! room) as [s|] eqn:Hs; simpl in *.
    + pose proof (inv_nonempty st HI room s Hs).
      destruct (decide (s = [])); [contradiction|].
      rewrite Hr1, insert_insert_eq. apply insert_id, Hs.
    + rewrite Hr1, delete_insert_eq. apply delete_id, Hs.
  - rewrite Hm2, Hm1. apply delete_insert_id, Hp.
  - intros r _. unfold occupants at 1. rewrite Ha2, lookup_fmap, Ha1.
    apply set_eq. intros x. destruct (decide (r = room)) as [->|Hne].
    + rewrite lookup_insert_eq. simpl.
      rewrite elem_of_difference, elem_of_union, elem_of_singleton.
      specialize (Hsid room). split; [tauto|].
      intros Hx. split; [auto|]. intros ->. contradiction.
    + rewrite lookup_insert_ne by congruence. specialize (Hsid r).
      unfold occupants in *. destruct (adapter st !! r) as [S|]; simpl in *.
      * rewrite elem_of_difference, elem_of_singleton. split; [tauto|].
        intros Hx. split; [auto|]. intros ->. contradiction.
      * reflexivity.
  - rewrite Hc2, Hc1. unfold members.
    destruct (rooms st !! room) as [s|] eqn:Hs; simpl.
    + pose proof (inv_nonempty st HI room s Hs).
      destruct (decide (s = [])); [contradiction | reflexivity].
    + reflexivity.
Qed.

(** [bob] looks into [room_a] and leaves: [alice] keeps her room. *)
Lemma join_then_disconnect_witness :
  rooms (on_disconnect conn2
           (on_join_room conn2 room_a bob
              (run init [join_room conn1 room_a alice])).1).1
  = rooms (run init [join_room conn1 room_a alice]).
Proof.
  refine (proj1 (join_then_disconnect
            (run init [join_room conn1 room_a alice]) conn2 room_a bob _ _ _ _)).
  - eexists. reflexivity.
  - vm_compute. reflexivity.
  - vm_compute. reflexivity.
  - by_compute.
Defined.

(** X11.  [disconnect] is idempotent: run again for the same connection, it
    changes nothing and emits nothing. *)
Theorem disconnect_twice (sid : jsstr) (st : State) :
  on_disconnect sid (on_disconnect sid st).1 = ((on_disconnect sid st).1, []).
Proof.
  destruct (on_disconnect_state sid st) as (_ & _ & Hm & Ha).
  set (st1 := (on_disconnect sid st).1) in *.
  assert (Hnone : socketToUserMap st1 !! sid = None)
    by (rewrite Hm; apply lookup_delete_eq).
  destruct (on_disconnect_state sid st1) as (Hr2 & Hc2 & Hm2 & Ha2).
  pose proof (on_disconnect_out sid st1) as Hout. rewrite Hnone in Hr2, Hc2, Hout.
  rewrite (surjective_pairing (on_disconnect sid st1)), Hout. f_equal.
  apply State_eq; [exact Hr2 | exact Hc2 | |].
  - rewrite Hm2. apply delete_id, Hnone.
  - rewrite Ha2, Ha. apply map_eq. intros r. rewrite !lookup_fmap.
    destruct (adapter st !! r) as [S|]; simpl; [|reflexivity].
    f_equal. apply set_eq. intros x.
    rewrite !elem_of_difference. tauto.
Qed.

(** X12.  An event writes only where its handler says.  [rooms] changes at
    most at the room joined and at the room the connection's entry named;
    [chatHistory] at most at the room a message is sent to, or at the room the
    entry of a joining or closing connection named; in [socketToUserMap] a
    join or a disconnect changes no entry but that of its own connection; and
    a [send-message] changes neither [rooms] nor [socketToUserMap] nor the
    socket.io rooms at all. *)
Theorem events_write_locally (ev : Event) (st : State) :
  (∀ room, room ∉ rooms_written ev st →
           rooms (step st ev) !! room = rooms st !! room)
  ∧ (∀ room, room ∉ history_written ev st →
             chatHistory (step st ev) !! room = chatHistory st !! room)
  ∧ (∀ sid, sid ∉ entries_written ev →
            socketToUserMap (step st ev) !! sid = socketToUserMap st !! sid)
  ∧ (∀ sid room text user timestamp clock,
       ev = send_message sid room text user timestamp clock →
       rooms (step st ev) = rooms st
       ∧ socketToUserMap (step st ev) = socketToUserMap st
       ∧ adapter (step st ev) = adapter st).
Proof.
  assert (Hvr : ∀ sid room, room ∉ previous_room sid st →
            vacated_rooms (socketToUserMap st !! sid) st !! room = rooms st !! room).
  { intros sid room. unfold previous_room.
    destruct (socketToUserMap st !! sid) as [[pu pr]|]; simpl; [|reflexivity].
    rewrite list_elem_of_singleton, lookup_vacate_rooms. intros Hne.
    destruct (decide (room = pr)); [contradiction | reflexivity]. }
  assert (Hvh : ∀ sid room, room ∉ previous_room sid st →
            vacated_history (socketToUserMap st !! sid) st !! room
            = chatHistory st !! room).
  { intros sid room. unfold previous_room.
    destruct (socketToUserMap st !! sid) as [[pu pr]|]; simpl; [|reflexivity].
    rewrite list_elem_of_singleton. unfold vacate_history. intros Hne.
    destruct (rooms st !! pr) as [s|]; [|reflexivity].
    destruct (decide (set_delete pu s = [])); [|reflexivity].
    apply lookup_delete_ne. congruence. }
  destruct ev as [sid room user|sid room text user ts clock|sid];
    unfold step; simpl.
  - split; [|split; [|split; [|intros; discriminate]]].
    + intros r Hnin. apply not_elem_of_cons in Hnin as [Hne Hnin].
      destruct (valid_join room user) eqn:Hv;
        [|rewrite on_join_room_invalid by assumption; reflexivity].
      destruct (on_join_room_state sid room user st Hv) as (Hr & _ & _).
      rewrite Hr, lookup_insert_ne by congruence. apply Hvr, Hnin.
    + intros r Hnin.
      destruct (valid_join room user) eqn:Hv;
        [|rewrite on_join_room_invalid by assumption; reflexivity].
      destruct (on_join_room_state sid room user st Hv) as (_ & Hc & _).
      rewrite Hc. apply Hvh, Hnin.
    + intros sid' Hnin. rewrite list_elem_of_singleton in Hnin.
      destruct (valid_join room user) eqn:Hv;
        [|rewrite on_join_room_invalid by assumption; reflexivity].
      destruct (on_join_room_state sid room user st Hv) as (_ & _ & Hm).
      rewrite Hm. apply lookup_insert_ne. congruence.
  - destruct (accepted sid room text user st) eqn:Hacc;
      [|rewrite on_send_message_rejected by assumption; repeat split].
    destruct (on_send_message_accepted sid room text user ts clock st Hacc)
      as (Hr & Hc & Hm & Ha & _).
    rewrite Hr, Hc, Hm, Ha. split; [reflexivity|]. split; [|repeat split].
    intros r Hnin. apply lookup_insert_ne. intros ->. apply Hnin. left.
  - destruct (on_disconnect_state sid st) as (Hr & Hc & Hm & _).
    rewrite Hm. split; [|split; [|split; [|intros; discriminate]]].
    + intros r Hnin. rewrite Hr. apply (Hvr sid r Hnin).
    + intros r Hnin. rewrite Hc. apply (Hvh sid r Hnin).
    + intros sid' Hnin. rewrite list_elem_of_singleton in Hnin.
      apply lookup_delete_ne. congruence.
Qed.

(** [alice] moves from [room_a] to [room_b] while [bob] is in a third room:
    his room and his entry stay as they are. *)
Lemma events_write_locally_witness :
  rooms (step (run init [join_room conn1 room_a alice;
                         join_room conn2 (js "33333333-3333-3333-3333-333333333333") bob])
           (join_room conn1 room_b alice))
    !! js "33333333-3333-3333-3333-333333333333"
  = Some [bob].
Proof.
  rewrite (proj1 (events_write_locally (join_room conn1 room_b alice)
    (run init [join_room conn1 room_a alice;
               join_room conn2 (js "33333333-3333-3333-3333-333333333333") bob]))).
  - vm_compute. reflexivity.
  - by_compute.
Defined.

(** ** Messages *)

(** X13.  A message enters a history, or is broadcast, only through a
    [send-message] of a connection whose entry of [socketToUserMap] names the
    room and the username of the message: whatever the arguments, a message
    that is in the history of some room after the handler and was not before
    is the message built from the arguments, the room is the one claimed, and
    the sender's entry names that room and that username. *)
Theorem stored_message_is_senders (st : State) (sid room text user : jsstr)
    (timestamp : option jsstr) (clock : jsstr) (r : jsstr) (msg : Msg) :
  msg ∈ snapshot r (on_send_message sid room text user timestamp clock st).1 →
  msg ∉ snapshot r st →
  r = room
  ∧ msg = build_msg text user timestamp clock
  ∧ socketToUserMap st !! sid = Some (mkUserInfo (m_username msg) room)
  ∧ (on_send_message sid room text user timestamp clock st).2
    = [mkEmit (occupants room st ∖ {[sid]}) (receive_message msg)].
Proof.
  destruct (accepted sid room text user st) eqn:Hacc.
  - destruct (on_send_message_accepted sid room text user timestamp clock st Hacc)
      as (_ & Hc & _ & Ha & Hout).
    unfold snapshot at 1. rewrite Hc. destruct (decide (r = room)) as [->|Hne].
    + rewrite lookup_insert_eq. simpl. intros Hin Hold.
      apply push_bounded_props in Hin as [Hin| ->]; [contradiction|].
      split; [reflexivity|]. split; [reflexivity|]. split.
      * apply accepted_authorized in Hacc. exact Hacc.
      * rewrite Hout. unfold socket_to_emit, occupants. rewrite Ha. reflexivity.
    + rewrite lookup_insert_ne by congruence. intros Hin Hold. contradiction.
  - rewrite on_send_message_rejected by assumption. intros Hin Hold. contradiction.
Qed.

(** The message [alice] sends is stored under her name. *)
Lemma stored_message_is_senders_witness :
  socketToUserMap (run init [join_room conn1 room_a alice]) !! conn1
  = Some (mkUserInfo alice room_a).
Proof.
  refine (proj1 (proj2 (proj2 (stored_message_is_senders
    (run init [join_room conn1 room_a alice]) conn1 room_a (js "hi") (js "alice ")
    None noon room_a (mkMsg (js "hi") alice noon) _ _)))).
  - by_compute.
  - vm_compute. intros Hin. inversion Hin.
Defined.

(** X14.  Successful sends to a room append to its history in the order of
    arrival: after any number of them the snapshot is the last 100 messages
    of the old snapshot followed by the new messages, and all of these when
    they are at most 100. *)
Theorem history_window (st : State) (room : jsstr) (evs : list Event) :
  all_delivered room st evs = true →
  (evs ≠ [] →
   snapshot room (run st evs)
   = drop (length (snapshot room st ++ messages_of evs) - 100)
       (snapshot room st ++ messages_of evs))
  ∧ ((length (snapshot room st) + length evs ≤ 100)%nat →
     snapshot room (run st evs) = snapshot room st ++ messages_of evs).
Proof.
  intros Hall. split.
  - intros Hne. apply (all_delivered_snapshot room st evs Hall Hne).
  - intros Hlen. destruct evs as [|ev evs].
    + simpl. unfold messages_of. simpl. rewrite app_nil_r. reflexivity.
    + rewrite (all_delivered_snapshot room st _ Hall) by congruence.
      unfold slice_last.
      pose proof (all_delivered_length room st _ Hall) as Hl.
      replace (length (snapshot room st ++ messages_of (ev :: evs)) - 100)%nat
        with 0%nat by (rewrite length_app, Hl; lia).
      reflexivity.
Qed.

(** Three sends of [alice] after one: four messages, in order. *)
Lemma history_window_witness :
  snapshot room_a
    (run (run init [join_room conn1 room_a alice;
                    send_message conn1 room_a (js "hi") alice None noon])
       (numbered_sends 3))
  = [mkMsg (js "hi") alice noon; mkMsg (js "0") alice noon;
     mkMsg (js "1") alice noon; mkMsg (js "2") alice noon].
Proof.
  rewrite (proj2 (history_window
    (run init [join_room conn1 room_a alice;
               send_message conn1 room_a (js "hi") alice None noon])
    room_a (numbered_sends 3) eq_refl)).
  - vm_compute. reflexivity.
  - vm_compute. lia.
Defined.

(** ** Counting members *)

Lemma members_nodup st room : Inv st → NoDup (members room st).
Proof.
  intros HI. unfold members. destruct (rooms st !! room) as [s|] eqn:Hs; simpl.
  - apply (inv_nodup st HI room s Hs).
  - apply NoDup_nil_2.
Qed.

Lemma elem_of_sessions_in room st user :
  user ∈ username <$> sessions_in room st ↔ named st room user.
Proof.
  unfold sessions_in, named. rewrite list_elem_of_fmap. split.
  - intros ([u r] & -> & Hin). apply list_elem_of_filter in Hin as [Hr Hin].
    simpl in Hr. subst r. apply list_elem_of_fmap in Hin as ([sid ui] & Heq & Hin).
    simpl in Heq. subst ui. apply elem_of_map_to_list in Hin. exists sid. exact Hin.
  - intros [sid Hsid]. exists (mkUserInfo user room). split; [reflexivity|].
    apply list_elem_of_filter. split; [reflexivity|].
    apply list_elem_of_fmap. exists (sid, mkUserInfo user room).
    split; [reflexivity|]. apply elem_of_map_to_list. exact Hsid.
Qed.

(** X15.  After every sequence of events during which no two connections
    held the same pair of username and room, the member count of every room
    is the number of connections whose entry of [socketToUserMap] names the
    room. *)
Theorem member_count_is_session_count (evs : list Event) (room : jsstr) :
  Forall unshared (visited init evs) →
  memberCount room (run init evs) = length (sessions_in room (run init evs)).
Proof.
  intros Hu. pose proof (Inv_run init evs Inv_init) as HI.
  destruct seated_init as [Hs Hh].
  destruct (seated_run init evs Hu Hs Hh) as [Hseated _].
  assert (Hlast : unshared (run init evs)).
  { clear -Hu. revert Hu. unfold run. generalize init.
    induction evs as [|ev evs IH]; intros st0 Hall; simpl in *.
    - apply Forall_cons in Hall as [H0 _]. exact H0.
    - apply Forall_cons in Hall as [_ Hrest]. apply IH, Hrest. }
  set (st := run init evs) in *.
  rewrite <- (length_fmap username (sessions_in room st)).
  unfold memberCount. apply Permutation_length, NoDup_Permutation.
  - apply members_nodup, HI.
  - apply NoDup_fmap_2_strong.
    + intros [u1 r1] [u2 r2] H1 H2 Heq. simpl in Heq. subst u2.
      apply list_elem_of_filter in H1 as [H1 _].
      apply list_elem_of_filter in H2 as [H2 _]. simpl in *. congruence.
    + apply NoDup_filter, Hlast.
  - intros user. rewrite elem_of_sessions_in. split.
    + apply (inv_named st HI).
    + apply Hseated.
Qed.

(** [alice] and [bob] in [room_a]: two members, two entries. *)
Lemma member_count_is_session_count_witness :
  length (sessions_in room_a
            (run init [join_room conn1 room_a alice; join_room conn2 room_a bob]))
  = 2%nat.
Proof.
  rewrite <- (member_count_is_session_count
                [join_room conn1 room_a alice; join_room conn2 room_a bob] room_a).
  - vm_compute. reflexivity.
  - by_compute.
Defined.

(** X16.  In every reachable state in which no connection has an entry in
    [socketToUserMap], [rooms] is empty and no socket.io room whose id has
    the UUID shape has an occupant. *)
Theorem no_sessions_no_rooms (st : State) :
  reachable st →
  socketToUserMap st = ∅ →
  rooms st = ∅ ∧ ∀ room, isValidUUID room = true → occupants room st = ∅.
Proof.
  intros Hreach Hempty. pose proof (Inv_reachable st Hreach) as HI. split.
  - apply map_eq. intros room. rewrite lookup_empty.
    destruct (rooms st !! room) as [s|] eqn:Hs; [|reflexivity]. exfalso.
    pose proof (inv_nonempty st HI room s Hs) as Hne.
    destruct s as [|u s]; [congruence|].
    destruct (inv_named st HI room u) as [sid Hsid].
    + unfold member, members. rewrite Hs. left.
    + rewrite Hempty, lookup_empty in Hsid. discriminate.
  - intros room _. apply set_eq. intros sid. split.
    + intros Hin. apply (inv_adapter st HI) in Hin as [u Hu].
      rewrite Hempty, lookup_empty in Hu. discriminate.
    + intros Hin. apply not_elem_of_empty in Hin. contradiction.
Qed.

(** Both connections of [room_a] have closed. *)
Lemma no_sessions_no_rooms_witness :
  rooms (run init [join_room conn1 room_a alice; join_room conn2 room_a bob;
                   disconnect conn1; disconnect conn2]) = ∅.
Proof.
  refine (proj1 (no_sessions_no_rooms _ _ _)).
  - eexists. reflexivity.
  - vm_compute. reflexivity.
Defined.

(** ** Rejoining a room that others are in *)



(** ** [cleanupRoom] *)

(** X18.  [cleanupRoom] never touches a room that has a member: it leaves
    the member list of every room and the history of every room with a member
    as they were, removes the entry of an empty room together with its
    history, and after it the room is not an empty entry of [rooms]; running
    it twice is running it once. *)
Theorem cleanupRoom_spares_members (room : jsstr) (st : State) :
  (∀ r, members r (cleanupRoom room st) = members r st)
  ∧ (∀ r, members r st ≠ [] →
          chatHistory (cleanupRoom room st) !! r = chatHistory st !! r)
  ∧ rooms (cleanupRoom room st) !! room ≠ Some []
  ∧ (rooms st !! room = Some [] →
     rooms (cleanupRoom room st) !! room = None
     ∧ chatHistory (cleanupRoom room st) !! room = None)
  ∧ cleanupRoom room (cleanupRoom room st) = cleanupRoom room st.
Proof.
  unfold cleanupRoom, members.
  destruct (rooms st !! room) as [s|] eqn:Hs.
  - destruct (decide (length s = 0%nat)) as [Hz|Hz]; simpl.
    + apply length_zero_nil in Hz. subst s. split; [|split; [|split; [|split]]].
      * intros r. destruct (decide (r = room)) as [->|Hne].
        -- rewrite lookup_delete_eq, Hs. reflexivity.
        -- rewrite lookup_delete_ne by congruence. reflexivity.
      * intros r Hr. apply lookup_delete_ne. intros <-. rewrite Hs in Hr.
        apply Hr. reflexivity.
      * rewrite lookup_delete_eq. discriminate.
      * intros _. split; apply lookup_delete_eq.
      * rewrite lookup_delete_eq. reflexivity.
    + rewrite Hs. destruct (decide (length s = 0%nat)); [contradiction|].
      split; [reflexivity|]. split; [reflexivity|]. split; [|split].
      * intros [= ->]. apply Hz. reflexivity.
      * intros [= ->]. exfalso. apply Hz. reflexivity.
      * reflexivity.
  - rewrite Hs. split; [reflexivity|]. split; [reflexivity|].
    split; [discriminate|]. split; [discriminate | reflexivity].
Qed.

(** ** The log line of a message *)

(** X19.  The preview of a message in the log line of [send-message] has at
    most 53 code units; it is the text itself when the text has at most 50,
    and otherwise the first 50 code units of the text followed by three
    dots. *)
Theorem message_preview_bound (message : jsstr) :
  (length (message_preview message) ≤ 53)%nat
  ∧ ((length message ≤ 50)%nat → message_preview message = message)
  ∧ ((50 < length message)%nat →
     message_preview message = take 50 message ++ js "..."
     ∧ length (message_preview message) = 53%nat).
Proof.
  unfold message_preview.
  destruct (decide (50 < length message)%nat) as [Hlong|Hshort].
  - rewrite !length_app, !length_take.
    change (length (js "...")) with 3%nat. split; [lia|]. split; [lia|].
    intros _. split; [reflexivity | lia].
  - rewrite app_nil_r, length_take. split; [lia|]. split; [|lia].
    intros _. apply take_ge. lia.
Qed.

Lemma message_preview_bound_witness : message_preview (js "hello") = js "hello".
Proof.
  apply (proj1 (proj2 (message_preview_bound (js "hello")))). vm_compute. lia.
Defined.

(** ** What leaves the server *)

Lemma reachable_step st ev : reachable st → reachable (step st ev).
Proof.
  intros [evs ->]. exists (evs ++ [ev]). unfold run. rewrite foldl_app. reflexivity.
Qed.

Lemma members_validated st room :
  reachable st →
  NoDup (members room st) ∧ ∀ user, user ∈ members room st → clean user.
Proof.
  intros Hreach. pose proof (Inv_reachable st Hreach) as HI.
  split; [apply members_nodup, HI|]. intros user Hin.
  destruct (inv_named st HI room user Hin) as [sid Hsid].
  exact (proj2 (wf_sessions st (WellFormed_reachable st Hreach) sid _ Hsid)).
Qed.

Lemma set_delete_validated st room user :
  reachable st →
  NoDup (set_delete user (members room st))
  ∧ ∀ u, u ∈ set_delete user (members room st) → clean u.
Proof.
  intros Hreach. destruct (members_validated st room Hreach) as [Hnd Hclean].
  split; [apply NoDup_set_delete, Hnd|].
  intros u Hin. apply elem_of_set_delete in Hin as [Hin _]. apply Hclean, Hin.
Qed.

Lemma snapshot_validated st room :
  reachable st →
  (length (snapshot room st) ≤ 100)%nat
  ∧ ∀ msg, msg ∈ snapshot room st → clean (m_message msg) ∧ clean (m_username msg).
Proof.
  intros Hreach. unfold snapshot.
  destruct (chatHistory st !! room) as [h|] eqn:Hh; simpl.
  - destruct (wf_history st (WellFormed_reachable st Hreach) room h Hh)
      as (_ & _ & Hlen & Hclean). split; assumption.
  - split; [lia|]. intros msg Hin. inversion Hin.
Qed.

(** X20.  Whatever a handler emits in a reachable state has passed the
    validation: a [chat-history] carries at most 100 messages, each message
    sent out (alone or in a history) has a text and a username that are not
    empty and have no whitespace at either end, and every member list sent
    out is free of duplicates and of such usernames. *)
Theorem emits_are_validated (st : State) (ev : Event) (e : Emit) :
  reachable st →
  e ∈ (handle ev st).2 →
  payload_validated (payload e).
Proof.
  intros Hreach. pose proof (reachable_step st ev Hreach) as Hreach'.
  unfold step in Hreach'.
  destruct ev as [sid room user|sid room text user ts clock|sid]; simpl in *.
  - destruct (valid_join room user) eqn:Hv.
    + destruct (socketToUserMap st !! sid) as [p|] eqn:Hp.
      * pose proof (on_join_room_rejoin sid room user p st Hv Hp) as Hout.
        cbv zeta in Hout. pose proof (f_equal fst Hout) as Hst'. cbn [fst] in Hst'.
        rewrite <- Hst' in Hout. rewrite Hout. cbn [snd].
        destruct (leave_previous_state sid p st) as (Hr & _).
        rewrite !elem_of_cons. intros [->|[->|[->|Hin]]];
          unfold io_to_emit, socket_emit; cbn [payload payload_validated].
        -- unfold members. rewrite Hr, members_vacate_rooms.
           destruct (decide (roomId p = roomId p)); [|congruence].
           apply (set_delete_validated st (roomId p) (username p) Hreach).
        -- apply snapshot_validated, Hreach'.
        -- apply members_validated, Hreach'.
        -- inversion Hin.
      * pose proof (on_join_room_first sid room user st Hv Hp) as Hout.
        cbv zeta in Hout. pose proof (f_equal fst Hout) as Hst'. cbn [fst] in Hst'.
        rewrite <- Hst' in Hout. rewrite Hout. cbn [snd].
        rewrite !elem_of_cons. intros [->|[->|Hin]];
          unfold io_to_emit, socket_emit; cbn [payload payload_validated].
        -- apply snapshot_validated, Hreach'.
        -- apply members_validated, Hreach'.
        -- inversion Hin.
    + unfold valid_join in Hv. unfold on_join_room.
      destruct (isValidUUID room); simpl in *.
      * destruct (blank user); [|discriminate]. simpl.
        intros Hin. apply list_elem_of_singleton in Hin as ->. exact I.
      * intros Hin. apply list_elem_of_singleton in Hin as ->. exact I.
  - destruct (accepted sid room text user st) eqn:Hacc.
    + destruct (on_send_message_accepted sid room text user ts clock st Hacc)
        as (_ & _ & _ & _ & Hout).
      destruct (accepted_checks _ _ _ _ _ Hacc) as (_ & Htext & Huser).
      rewrite Hout. intros Hin. apply list_elem_of_singleton in Hin as ->. simpl.
      split; apply not_blank_clean; assumption.
    + unfold accepted in Hacc. unfold on_send_message.
      destruct (isValidUUID room); simpl in *.
      * destruct (blank text); simpl in *; [intros Hin; inversion Hin|].
        destruct (blank user); simpl in *.
        -- intros Hin. apply list_elem_of_singleton in Hin as ->. exact I.
        -- rewrite Hacc. simpl.
           intros Hin. apply list_elem_of_singleton in Hin as ->. exact I.
      * intros Hin. apply list_elem_of_singleton in Hin as ->. exact I.
  - rewrite on_disconnect_out.
    destruct (socketToUserMap st !! sid) as [ui|]; [|intros Hin; inversion Hin].
    destruct (rooms st !! roomId ui) as [s|] eqn:Hs; [|intros Hin; inversion Hin].
    intros Hin. apply list_elem_of_singleton in Hin as ->. simpl.
    pose proof (set_delete_validated st (roomId ui) (username ui) Hreach) as Hval.
    unfold members in Hval. rewrite Hs in Hval. exact Hval.
Qed.

(** The message [alice] sends with blanks around it goes out without them. *)
Lemma emits_are_validated_witness :
  payload_validated (receive_message (mkMsg (js "hi") alice noon)).
Proof.
  apply (emits_are_validated
           (run init [join_room conn1 room_a alice; join_room conn2 room_a bob])
           (send_message conn1 room_a (js " hi ") alice None noon)
           (mkEmit {[conn2]} (receive_message (mkMsg (js "hi") alice noon)))).
  - eexists. reflexivity.
  - vm_compute. left.
Defined.

(** * The first revision *)

Lemma inherited_not_uuid key : Legacy.inherited key = true → isValidUUID key = false.
Proof.
  unfold Legacy.inherited. rewrite bool_decide_eq_true. unfold Legacy.inherited_names.
  rewrite !elem_of_cons.
  intros H. repeat (destruct H as [->|H]; [vm_compute; reflexivity|]). inversion H.
Qed.

Lemma uuid_not_inherited key : isValidUUID key = true → Legacy.inherited key = false.
Proof.
  intros Hv. destruct (Legacy.inherited key) eqn:Hi; [|reflexivity].
  apply inherited_not_uuid in Hi. congruence.
Qed.

Lemma legacy_send_state sid room message user timestamp st :
  Legacy.inherited room = false →
  ∃ st',
    Legacy.on_send_message sid room message user timestamp st
    = Legacy.Returned st'
        [Legacy.mkEmit (Legacy.occupants room st ∖ {[sid]})
           (Legacy.receive_message (Legacy.mkMsg message user timestamp))]
    ∧ Legacy.chatHistory st'
      = <[room := Legacy.snapshot room st ++ [Legacy.mkMsg message user timestamp]]>
          (Legacy.chatHistory st)
    ∧ Legacy.rooms st' = Legacy.rooms st
    ∧ Legacy.socketToUserMap st' = Legacy.socketToUserMap st
    ∧ Legacy.adapter st' = Legacy.adapter st.
Proof.
  intros Hi. unfold Legacy.on_send_message, Legacy.snapshot. rewrite Hi.
  destruct (Legacy.chatHistory st !! room) as [h|] eqn:Hh;
    (eexists; split; [reflexivity|]); simpl; repeat split.
  - apply map_eq. intros r. destruct (decide (r = room)) as [->|Hne].
    + rewrite lookup_alter_eq, lookup_insert_eq, Hh. reflexivity.
    + rewrite lookup_alter_ne, lookup_insert_ne by congruence. reflexivity.
  - apply map_eq. intros r. destruct (decide (r = room)) as [->|Hne].
    + rewrite lookup_alter_eq, !lookup_insert_eq. reflexivity.
    + rewrite lookup_alter_ne, !lookup_insert_ne by congruence. reflexivity.
Qed.

(** X21.  In the first revision nothing is checked, trimmed or cut: any
    sequence of [send-message] events for a room-id that is not an inherited
    property name returns, whoever sends and whatever the sender's entry; it
    appends every message, as received, to the history of the room, which
    grows by one message per event, and changes no other table. *)
Theorem legacy_history_unbounded (st : Legacy.State) (room : jsstr)
    (evs : list Legacy.Event) :
  Legacy.inherited room = false →
  forallb (Legacy.sends_to room) evs = true →
  ∃ st' out,
    Legacy.run st evs = Legacy.Returned st' out
    ∧ (evs ≠ [] →
       Legacy.chatHistory st' !! room
       = Some (Legacy.snapshot room st ++ Legacy.messages_of evs))
    ∧ Legacy.snapshot room st' = Legacy.snapshot room st ++ Legacy.messages_of evs
    ∧ length (Legacy.snapshot room st')
      = (length (Legacy.snapshot room st) + length evs)%nat
    ∧ Legacy.rooms st' = Legacy.rooms st
    ∧ Legacy.socketToUserMap st' = Legacy.socketToUserMap st.
Proof.
  intros Hi. revert st. induction evs as [|ev evs IH]; intros st Hall.
  - exists st, []. unfold Legacy.messages_of. simpl. rewrite app_nil_r.
    repeat split; (congruence || lia).
  - simpl in Hall. apply andb_true_iff in Hall as [Hev Hall].
    destruct ev as [sid|sid r user|sid r message user ts|sid]; try discriminate.
    simpl in Hev. apply bool_decide_eq_true in Hev. subst r.
    destruct (legacy_send_state sid room message user ts st Hi)
      as (st1 & Hsend & Hc1 & Hr1 & Hm1 & _).
    destruct (IH st1 Hall) as (st' & out & Hrun & _ & Hsnap & Hlen & Hr & Hm).
    assert (Hsnap1 : Legacy.snapshot room st1
                     = Legacy.snapshot room st ++ [Legacy.mkMsg message user ts]).
    { unfold Legacy.snapshot at 1. rewrite Hc1, lookup_insert_eq. reflexivity. }
    assert (Hfinal : Legacy.snapshot room st'
                     = Legacy.snapshot room st
                       ++ Legacy.messages_of
                            (Legacy.send_message sid room message user ts :: evs)).
    { rewrite Hsnap, Hsnap1, <- app_assoc. reflexivity. }
    eexists st', _. split; [|split; [|split; [|split; [|split]]]].
    + simpl. rewrite Hsend, Hrun. reflexivity.
    + intros _. rewrite <- Hfinal. unfold Legacy.snapshot.
      destruct evs as [|ev' evs'].
      * simpl in Hrun. injection Hrun as <- _. rewrite Hc1, lookup_insert_eq.
        reflexivity.
      * destruct (IH st1 Hall) as (st'' & out'' & Hrun'' & Hsome & _).
        rewrite Hrun in Hrun''. injection Hrun'' as <- _.
        rewrite Hsome by congruence. reflexivity.
    + exact Hfinal.
    + rewrite Hlen, Hsnap1, length_app. simpl. lia.
    + congruence.
    + congruence.
Qed.

(** 150 messages sent to [room_a] by a connection that never joined it. *)
Lemma legacy_history_unbounded_witness :
  ∃ st' out,
    Legacy.run Legacy.init (legacy_numbered_sends 150) = Legacy.Returned st' out
    ∧ length (Legacy.snapshot room_a st') = 150%nat.
Proof.
  destruct (legacy_history_unbounded Legacy.init room_a (legacy_numbered_sends 150))
    as (st' & out & Hrun & _ & _ & Hlen & _).
  - vm_compute. reflexivity.
  - vm_compute. reflexivity.
  - exists st', out. split; [exact Hrun|]. rewrite Hlen. vm_compute. reflexivity.
Defined.

Lemma legacy_join_state sid room user st :
  Legacy.inherited room = false →
  ∃ st',
    Legacy.on_join_room sid room user st
    = Legacy.Returned st'
        [Legacy.mkEmit {[sid]} (Legacy.chat_history (Legacy.snapshot room st));
         Legacy.mkEmit ({[sid]} ∪ Legacy.occupants room st)
           (Legacy.update_users (set_add user (Legacy.members room st)))]
    ∧ Legacy.rooms st' = <[room := set_add user (Legacy.members room st)]> (Legacy.rooms st)
    ∧ Legacy.chatHistory st' = Legacy.chatHistory st
    ∧ Legacy.socketToUserMap st'
      = <[sid := mkUserInfo user room]> (Legacy.socketToUserMap st)
    ∧ Legacy.adapter st'
      = <[room := {[sid]} ∪ Legacy.occupants room st]> (Legacy.adapter st).
Proof.
  intros Hi. unfold Legacy.on_join_room. rewrite Hi.
  unfold Legacy.members, Legacy.occupants, Legacy.snapshot,
    Legacy.socket_emit, Legacy.io_to_emit. simpl.
  destruct (Legacy.rooms st !! room) as [s|] eqn:Hs; simpl.
  - eexists. split.
    { unfold Legacy.occupants. simpl.
      rewrite lookup_alter_eq, Hs, lookup_insert_eq. reflexivity. }
    repeat split. simpl. apply map_eq. intros r. destruct (decide (r = room)) as [->|Hne].
    + rewrite lookup_alter_eq, lookup_insert_eq, Hs. reflexivity.
    + rewrite lookup_alter_ne, lookup_insert_ne by congruence. reflexivity.
  - eexists. split.
    { unfold Legacy.occupants. simpl.
      rewrite lookup_alter_eq, !lookup_insert_eq. reflexivity. }
    repeat split. simpl. apply map_eq. intros r. destruct (decide (r = room)) as [->|Hne].
    + rewrite lookup_alter_eq, !lookup_insert_eq. reflexivity.
    + rewrite lookup_alter_ne, !lookup_insert_ne by congruence. reflexivity.
Qed.

Lemma legacy_occupants_leaveAll sid room st :
  Legacy.occupants room (Legacy.socket_leaveAll sid st)
  = Legacy.occupants room st ∖ {[sid]}.
Proof.
  unfold Legacy.occupants. simpl. rewrite lookup_fmap.
  destruct (Legacy.adapter st !! room); simpl; [reflexivity|].
  symmetry. apply difference_empty_gset.
Qed.

Lemma legacy_disconnect_state sid user room st :
  Legacy.socketToUserMap st !! sid = Some (mkUserInfo user room) →
  Legacy.inherited room = false →
  ∃ st',
    Legacy.on_disconnect sid st
    = Legacy.Returned st'
        [Legacy.mkEmit (Legacy.occupants room st ∖ {[sid]})
           (Legacy.update_users (set_delete user (Legacy.members room st)))]
    ∧ Legacy.rooms st' = vacate_rooms user room (Legacy.rooms st)
    ∧ Legacy.chatHistory st'
      = match Legacy.rooms st !! room with
        | Some s => if decide (set_delete user s = [])
                    then delete room (Legacy.chatHistory st)
                    else Legacy.chatHistory st
        | None => Legacy.chatHistory st
        end
    ∧ Legacy.socketToUserMap st' = delete sid (Legacy.socketToUserMap st)
    ∧ Legacy.adapter st' = (λ S, S ∖ {[sid]}) <$> Legacy.adapter st.
Proof.
  intros Hp Hi. unfold Legacy.on_disconnect.
  change (Legacy.socketToUserMap (Legacy.socket_leaveAll sid st))
    with (Legacy.socketToUserMap st).
  rewrite Hp. cbn [roomId username]. rewrite Hi.
  unfold Legacy.io_to_emit, Legacy.members, vacate_rooms.
  cbn [Legacy.rooms Legacy.with_rooms Legacy.socket_leaveAll Legacy.with_adapter].
  rewrite lookup_alter_eq.
  destruct (Legacy.rooms st !! room) as [s|] eqn:Hs; simpl.
  - destruct (decide (length (set_delete user s) = 0%nat)) as [Hz|Hz];
      destruct (decide (set_delete user s = [])) as [He|He];
      try (apply length_zero_nil in Hz; contradiction);
      try (apply length_zero_nil in He; contradiction).
    + eexists. split.
      { f_equal. f_equal. f_equal.
        - apply (legacy_occupants_leaveAll sid room st).
        - simpl. rewrite lookup_delete_eq, He. reflexivity. }
      repeat split. simpl. apply map_eq. intros r.
      destruct (decide (r = room)) as [->|Hne].
      * rewrite !lookup_delete_eq. reflexivity.
      * rewrite !lookup_delete_ne, lookup_alter_ne by congruence. reflexivity.
    + eexists. split.
      { f_equal. f_equal. f_equal.
        - apply (legacy_occupants_leaveAll sid room st).
        - simpl. rewrite lookup_alter_eq, Hs. reflexivity. }
      repeat split. simpl. apply map_eq. intros r.
      destruct (decide (r = room)) as [->|Hne].
      * rewrite lookup_alter_eq, lookup_insert_eq, Hs. reflexivity.
      * rewrite lookup_alter_ne, lookup_insert_ne by congruence. reflexivity.
  - eexists. split.
    { f_equal. f_equal. f_equal.
      - apply (legacy_occupants_leaveAll sid room st).
      - simpl. rewrite lookup_alter_eq, Hs. reflexivity. }
    repeat split. simpl. apply map_eq. intros r.
    destruct (decide (r = room)) as [->|Hne].
    + rewrite lookup_alter_eq, Hs. reflexivity.
    + rewrite lookup_alter_ne by congruence. reflexivity.
Qed.

(** X22.  The first revision's [join-room] does not vacate: when a
    connection whose entry names [u] and room [A], with [u] a member of [A],
    joins another room [B], whose id is not an inherited property name, and
    then closes, both handlers return, the connection stays in the socket.io
    room [A] until it closes, and at the end [u] is still a member of [A]
    although the connection has no entry any more: the disconnect cleans up
    [B] only. *)
Theorem legacy_join_leaves_ghost (st : Legacy.State) (sid A B u user : jsstr) :
  Legacy.socketToUserMap st !! sid = Some (mkUserInfo u A) →
  u ∈ Legacy.members A st →
  A ≠ B →
  Legacy.inherited B = false →
  ∃ st1 out1 st2 out2,
    Legacy.on_join_room sid B user st = Legacy.Returned st1 out1
    ∧ Legacy.on_disconnect sid st1 = Legacy.Returned st2 out2
    ∧ Legacy.occupants A st1 = Legacy.occupants A st
    ∧ Legacy.members A st2 = Legacy.members A st
    ∧ u ∈ Legacy.members A st2
    ∧ Legacy.socketToUserMap st2 !! sid = None.
Proof.
  intros Hp Hin HAB Hi.
  destruct (legacy_join_state sid B user st Hi) as (st1 & Hj & Hr1 & _ & Hm1 & Ha1).
  assert (Hp1 : Legacy.socketToUserMap st1 !! sid = Some (mkUserInfo user B))
    by (rewrite Hm1; apply lookup_insert_eq).
  destruct (legacy_disconnect_state sid user B st1 Hp1 Hi)
    as (st2 & Hd & Hr2 & _ & Hm2 & _).
  exists st1. eexists. exists st2. eexists.
  split; [exact Hj|]. split; [exact Hd|].
  assert (Hmem : Legacy.members A st2 = Legacy.members A st).
  { unfold Legacy.members. rewrite Hr2, lookup_vacate_rooms.
    destruct (decide (A = B)); [contradiction|].
    rewrite Hr1, lookup_insert_ne by congruence. reflexivity. }
  split; [|split; [exact Hmem | split; [rewrite Hmem; exact Hin|]]].
  - unfold Legacy.occupants. rewrite Ha1, lookup_insert_ne by congruence. reflexivity.
  - rewrite Hm2. apply lookup_delete_eq.
Qed.

(** [alice] is in [room_a], joins [room_b] and closes: [room_a] still lists
    her. *)
Lemma legacy_join_leaves_ghost_witness :
  ∃ st1 out1 st2 out2,
    Legacy.on_join_room conn1 room_b alice
      (Legacy.state_of (Legacy.run Legacy.init
                          [Legacy.connection conn1;
                           Legacy.join_room conn1 room_a alice]))
    = Legacy.Returned st1 out1
    ∧ Legacy.on_disconnect conn1 st1 = Legacy.Returned st2 out2
    ∧ alice ∈ Legacy.members room_a st2
    ∧ Legacy.socketToUserMap st2 !! conn1 = None.
Proof.
  destruct (legacy_join_leaves_ghost
              (Legacy.state_of (Legacy.run Legacy.init
                                  [Legacy.connection conn1;
                                   Legacy.join_room conn1 room_a alice]))
              conn1 room_a room_b alice alice)
    as (st1 & out1 & st2 & out2 & Hj & Hd & _ & _ & Hin & Hnone).
  - vm_compute. reflexivity.
  - vm_compute. left.
  - vm_compute. discriminate.
  - vm_compute. reflexivity.
  - exists st1, out1, st2, out2. repeat split; assumption.
Defined.

(** X23.  A room-id that names a property every object inherits
    ([constructor], [toString], [__proto__], ...) makes the first revision's
    handlers throw: [join-room] after it has put the socket into the
    socket.io room and written the connection's entry, with [rooms] untouched
    and nothing emitted, and [send-message] before it has changed anything.
    The later revision answers both events with a [room-error] and changes
    nothing, as no such name has the shape of a UUID. *)
Theorem inherited_room_names (key : jsstr) :
  key ∈ Legacy.inherited_names →
  (∀ sid user st,
     ∃ st', Legacy.on_join_room sid key user st = Legacy.Threw st' []
            ∧ Legacy.rooms st' = Legacy.rooms st
            ∧ Legacy.socketToUserMap st' !! sid = Some (mkUserInfo user key)
            ∧ sid ∈ Legacy.occupants key st')
  ∧ (∀ sid message user timestamp st,
       Legacy.on_send_message sid key message user timestamp st = Legacy.Threw st [])
  ∧ (∀ sid user st,
       on_join_room sid key user st
       = (st, [mkEmit {[sid]} (room_error (js "Invalid room ID format"))]))
  ∧ (∀ sid text user timestamp clock st,
       on_send_message sid key text user timestamp clock st
       = (st, [mkEmit {[sid]} (room_error (js "Invalid room ID"))])).
Proof.
  intros Hkey.
  assert (Hi : Legacy.inherited key = true)
    by (apply bool_decide_eq_true; exact Hkey).
  pose proof (inherited_not_uuid key Hi) as Hv.
  split; [|split; [|split]].
  - intros sid user st. unfold Legacy.on_join_room. rewrite Hi.
    eexists. split; [reflexivity|]. split; [reflexivity|]. split.
    + simpl. apply lookup_insert_eq.
    + unfold Legacy.occupants. simpl. rewrite lookup_insert_eq. simpl.
      apply elem_of_union. left. apply elem_of_singleton. reflexivity.
  - intros sid message user timestamp st. unfold Legacy.on_send_message.
    rewrite Hi. reflexivity.
  - intros sid user st. unfold on_join_room. rewrite Hv. reflexivity.
  - intros sid text user timestamp clock st. unfold on_send_message.
    rewrite Hv. reflexivity.
Qed.

Lemma inherited_room_names_witness :
  Legacy.on_send_message conn1 (js "constructor") (js "hi") alice None Legacy.init
  = Legacy.Threw Legacy.init [].
Proof.
  apply (proj1 (proj2 (inherited_room_names (js "constructor") ltac:(by_compute)))).
Defined.

(** ** The two revisions side by side *)

Lemma legacy_State_eq (a b : Legacy.State) :
  Legacy.rooms a = Legacy.rooms b → Legacy.chatHistory a = Legacy.chatHistory b →
  Legacy.socketToUserMap a = Legacy.socketToUserMap b →
  Legacy.adapter a = Legacy.adapter b → a = b.
Proof. destruct a, b. simpl. intros -> -> -> ->. reflexivity. Qed.

Lemma legacy_snapshot_state room st :
  Legacy.snapshot room (legacy_state st) = map legacy_msg (snapshot room st).
Proof.
  unfold Legacy.snapshot, snapshot. simpl. rewrite lookup_fmap.
  destruct (chatHistory st !! room); reflexivity.
Qed.

(** X24.  On the input both revisions accept, they do the same.  A
    [join-room] with a room-id of the UUID shape and a username that is not
    blank and already trimmed, from a connection that has no entry, and a
    [disconnect] of a connection that has no entry or whose entry names a
    room of the UUID shape that [rooms] holds, return in the first revision
    with the state of the later one and with its emits, one for one and in
    the same order: the same recipients and the same payload. *)
Theorem revisions_agree (st : State) (sid : jsstr) :
  (∀ room user,
     valid_join room user = true → trim user = user →
     socketToUserMap st !! sid = None →
     ∃ lout,
       Legacy.on_join_room sid room user (legacy_state st)
       = Legacy.Returned (legacy_state (on_join_room sid room user st).1) lout
       ∧ Forall2 same_emit (on_join_room sid room user st).2 lout)
  ∧ (∀ userInfo,
       socketToUserMap st !! sid = Some userInfo →
       isValidUUID (roomId userInfo) = true →
       is_Some (rooms st !! roomId userInfo) →
       ∃ lout,
         Legacy.on_disconnect sid (legacy_state st)
         = Legacy.Returned (legacy_state (on_disconnect sid st).1) lout
         ∧ Forall2 same_emit (on_disconnect sid st).2 lout)
  ∧ (socketToUserMap st !! sid = None →
     ∃ lout,
       Legacy.on_disconnect sid (legacy_state st)
       = Legacy.Returned (legacy_state (on_disconnect sid st).1) lout
       ∧ Forall2 same_emit (on_disconnect sid st).2 lout).
Proof.
  split; [|split].
  - intros room user Hv Htrim Hp.
    exists (omap legacy_emit (on_join_room sid room user st).2).
    pose proof Hv as Hv'. apply andb_true_iff in Hv' as [Hroom _].
    destruct (legacy_join_state sid room user (legacy_state st)
                (uuid_not_inherited room Hroom)) as (stL & HL & Hr & Hc & Hm & Ha).
    rewrite HL, (on_join_room_first sid room user st Hv Hp). cbn [fst snd].
    destruct (join_new_state sid room (trim user) st) as (Hr' & Hc' & Hm' & Ha').
    cbv zeta in Hr', Hc', Hm', Ha'. rewrite Htrim in *. split.
    + f_equal.
      * apply legacy_State_eq;
          cbn [legacy_state Legacy.rooms Legacy.chatHistory Legacy.socketToUserMap
               Legacy.adapter].
        -- rewrite Hr, Hr'. reflexivity.
        -- rewrite Hc, Hc'. reflexivity.
        -- rewrite Hm, Hm'. reflexivity.
        -- rewrite Ha, Ha'. reflexivity.
      * unfold socket_emit, io_to_emit.
        cbn [omap list_omap legacy_emit payload recipients].
        rewrite legacy_snapshot_state. unfold snapshot, occupants, members.
        rewrite Hc', Hr', Ha', !lookup_insert_eq. reflexivity.
    + unfold socket_emit, io_to_emit.
      cbn [omap list_omap legacy_emit payload recipients].
      repeat constructor.
  - intros [u r] Hp Hroom [s Hs]. simpl in *.
    exists (omap legacy_emit (on_disconnect sid st).2).
    destruct (legacy_disconnect_state sid u r (legacy_state st) Hp
                (uuid_not_inherited r Hroom)) as (stL & HL & Hr & Hc & Hm & Ha).
    destruct (on_disconnect_state sid st) as (Hr' & Hc' & Hm' & Ha').
    rewrite Hp in Hr', Hc'. simpl in Hr', Hc'.
    rewrite HL, on_disconnect_out, Hp. simpl. rewrite Hs. split.
    + f_equal.
      * apply legacy_State_eq; simpl.
        -- rewrite Hr, Hr'. reflexivity.
        -- rewrite Hc, Hc'. simpl. unfold vacate_history. rewrite Hs.
           destruct (decide (set_delete u s = [])); [|reflexivity].
           symmetry. apply fmap_delete.
        -- rewrite Hm, Hm'. reflexivity.
        -- rewrite Ha, Ha'. reflexivity.
      * unfold legacy_emit. simpl. unfold Legacy.members. simpl. rewrite Hs.
        reflexivity.
    + repeat constructor.
  - intros Hp. exists []. unfold Legacy.on_disconnect, on_disconnect. simpl.
    rewrite Hp. split; [reflexivity | constructor].
Qed.

(** [alice] joins [room_a] first in both revisions. *)
Lemma revisions_agree_witness :
  ∃ lout,
    Legacy.on_join_room conn1 room_a alice (legacy_state init)
    = Legacy.Returned (legacy_state (on_join_room conn1 room_a alice init).1) lout
    ∧ Forall2 same_emit (on_join_room conn1 room_a alice init).2 lout.
Proof.
  apply (proj1 (revisions_agree init conn1) room_a alice);
    vm_compute; reflexivity.
Defined.
